(** * LoopBack core: application life cycle, registration and schema migration

    A shallow embedding of
      - packages/core/src/application.ts        (class [Application]),
      - examples/todo/src/migrate.ts            (function [migrate]),
      - packages/repository/src/repositories/migrateable.repository.ts
                                                (guard [isMigrateableRepository]),
    together with the properties their specification states about them. *)

From Stdlib Require Import String Ascii List ZArith Lia Bool.
From Stdlib Require Import Sorted Permutation OrderedTypeEx.
From stdpp Require Import gmap strings list fin_maps.
Import ListNotations.

Local Open Scope string_scope.
Local Open Scope list_scope.

Set Default Proof Using "Type".

(* ===================================================================== *)
(** * JavaScript values that the code inspects                            *)
(* ===================================================================== *)

(** Strings are sequences of UTF-16 code units; [s1 < s2] and [s1 > s2]
    on two JavaScript strings compare them unit by unit, a proper prefix
    being smaller. *)
Module Js.

(** A string of this development holds its text in UTF-8, one byte per
    character of the Rocq string; the language sees the same text as a
    sequence of 16-bit code units (UTF-16).  [utf16] decodes the bytes:
    one unit for a character of the basic plane, a surrogate pair for a
    character above U+FFFF, and U+FFFD for a byte that starts no
    well-formed sequence. *)
Definition continuation (b : N) : bool := (128 <=? b)%N && (b <? 192)%N.

Fixpoint utf16 (bs : list N) : list N :=
  match bs with
  | [] => []
  | b0 :: r0 =>
      if (b0 <? 128)%N then b0 :: utf16 r0
      else
        match r0 with
        | [] => [65533%N]
        | b1 :: r1 =>
            if (194 <=? b0)%N && (b0 <? 224)%N && continuation b1
            then ((b0 - 192) * 64 + (b1 - 128))%N :: utf16 r1
            else
              match r1 with
              | [] => 65533%N :: utf16 r0
              | b2 :: r2 =>
                  if (224 <=? b0)%N && (b0 <? 240)%N
                     && continuation b1 && continuation b2
                  then ((b0 - 224) * 4096 + (b1 - 128) * 64 + (b2 - 128))%N
                       :: utf16 r2
                  else
                    match r2 with
                    | [] => 65533%N :: utf16 r0
                    | b3 :: r3 =>
                        if (240 <=? b0)%N && (b0 <? 245)%N
                           && continuation b1 && continuation b2
                           && continuation b3
                        then
                          let cp := ((b0 - 240) * 262144 + (b1 - 128) * 4096
                                     + (b2 - 128) * 64 + (b3 - 128)
                                     - 65536)%N in
                          (55296 + cp / 1024)%N :: (56320 + cp mod 1024)%N
                          :: utf16 r3
                        else 65533%N :: utf16 r0
                    end
              end
        end
  end.

Definition code_units (s : string) : list N :=
  utf16 (map N_of_ascii (list_ascii_of_string s)).

(** The comparison of two sequences of code units: the first unit that
    differs decides, and a proper prefix is smaller. *)
Fixpoint units_compare (u1 u2 : list N) : comparison :=
  match u1, u2 with
  | [], [] => Eq
  | [], _ :: _ => Lt
  | _ :: _, [] => Gt
  | x :: u1', y :: u2' =>
      match (x ?= y)%N with
      | Eq => units_compare u1' u2'
      | c => c
      end
  end.

Definition str_compare (s1 s2 : string) : comparison :=
  units_compare (code_units s1) (code_units s2).

(** [s1 < s2] and [s1 > s2] on strings. *)
Definition str_lt (s1 s2 : string) : bool :=
  match str_compare s1 s2 with Lt => true | _ => false end.
Definition str_gt (s1 s2 : string) : bool := str_lt s2 s1.

(** [!(s1 > s2)]. *)
Definition str_le (s1 s2 : string) : bool := negb (str_gt s1 s2).

(** The order of strings in the words of the language definition:
    [u1] is before [u2] when [u1] is a proper prefix of [u2], or when at
    the first position where they differ the unit of [u1] is the smaller
    one. *)
Inductive lex_lt : list N -> list N -> Prop :=
| lex_lt_prefix (y : N) (u : list N) : lex_lt [] (y :: u)
| lex_lt_differ (x y : N) (u1 u2 : list N) :
    (x < y)%N -> lex_lt (x :: u1) (y :: u2)
| lex_lt_same (x : N) (u1 u2 : list N) :
    lex_lt u1 u2 -> lex_lt (x :: u1) (x :: u2).

Definition lex_le (u1 u2 : list N) : Prop := u1 = u2 \/ lex_lt u1 u2.

(** Reading a property of an object used as a map of strings yields
    [undefined] ([None]) when the property is absent.
    [v != null]: neither [null] nor [undefined]. *)
Definition not_nullish (v : option string) : bool :=
  match v with Some _ => true | None => false end.

(** ToBoolean on a string-or-undefined: [undefined] and [''] are falsy. *)
Definition truthy (v : option string) : bool :=
  match v with
  | Some s => negb (String.eqb s "")
  | None => false
  end.

(** [v || d] for a string-or-undefined [v]. *)
Definition or_else (v : option string) (d : string) : string :=
  match v with
  | Some s => if truthy v then s else d
  | None => d
  end.

(** [xs.includes(x)] on an array of strings (SameValueZero is equality
    on strings). *)
Definition includes (xs : list string) (x : string) : bool :=
  existsb (String.eqb x) xs.

(** [Array.prototype.sort(comparefn)].  The language fixes the result
    for a consistent [comparefn]: the elements in ascending order, and
    elements that compare equal in their original order (the sort is
    stable, as ECMAScript 2019 requires).  The model is the insertion
    sort that builds that list, the only one with these two properties
    ([JsFacts.sort_unique]). *)
Section Sort.
Context {A : Type} (comparefn : A -> A -> Z).

(** [x] may stand before [y]: [comparefn(x, y) <= 0]. *)
Definition precedes (x y : A) : Prop := (comparefn x y <= 0)%Z.

(** [x] and [y] compare equal: each may stand before the other. *)
Definition tied (x y : A) : bool :=
  (comparefn x y <=? 0)%Z && (comparefn y x <=? 0)%Z.

Fixpoint sort_insert (x : A) (l : list A) : list A :=
  match l with
  | [] => [x]
  | y :: l' =>
      if (comparefn x y <=? 0)%Z then x :: y :: l'
      else y :: sort_insert x l'
  end.

Fixpoint sort (l : list A) : list A :=
  match l with
  | [] => []
  | x :: l' => sort_insert x (sort l')
  end.
End Sort.

(** [xs.reverse()]. *)
Definition reverse {A : Type} (xs : list A) : list A := rev xs.

End Js.

(* ===================================================================== *)
(** * The context (registry) that [Application] extends                   *)
(* ===================================================================== *)

(** Modelled from the spec: the binding keys and tag names of
    [CoreBindings] (./keys is not part of the sources); only the names
    the specification and the documentation comments of application.ts
    give are used. *)
Module CoreBindings.
Definition SERVERS : string := "servers".
Definition COMPONENTS : string := "components".
Definition CONTROLLERS : string := "controllers".
Definition SERVER_TAG : string := "server".
Definition COMPONENT_TAG : string := "component".
Definition CONTROLLER_TAG : string := "controller".
Definition LIFE_CYCLE_OBSERVER_TAG : string := "lifecycle-observer".
End CoreBindings.

(** Modelled from the spec: [BindingType] and [BindingScope] of
    @loopback/context (section 3: a binding has a type
    constant | class-factory | provider and a scope
    transient | singleton | constant).  application.ts itself names
    [BindingType.CONSTANT] and [BindingScope.SINGLETON]. *)
Module BindingType.
Inductive t := CONSTANT | CLASS | PROVIDER.
Definition type_eqb (a b : t) : bool :=
  match a, b with
  | CONSTANT, CONSTANT | CLASS, CLASS | PROVIDER, PROVIDER => true
  | _, _ => false
  end.
End BindingType.

Module BindingScope.
Inductive t := TRANSIENT | SINGLETON | CONSTANT.
Definition scope_eqb (a b : t) : bool :=
  match a, b with
  | TRANSIENT, TRANSIENT | SINGLETON, SINGLETON | CONSTANT, CONSTANT => true
  | _, _ => false
  end.
End BindingScope.

(** A class (constructor function): what the code reads of it is its
    [name]; [ctor_id] tells apart classes of the same name. *)
Record Constructor := mkConstructor {
  ctor_name : string;
  ctor_id : nat
}.

(** Modelled from the spec: a [Binding] of @loopback/context (section 3):
    a unique string key, a type (unset until a value source is given), a
    scope, and a tag map from tag name to tag value, the values being
    strings (the ordering key is a server-tag value, "a string, possibly
    empty").  [valueConstructor] is the class given to [toClass] or
    [toProvider]. *)
Record Binding := mkBinding {
  key : string;
  type : option BindingType.t;
  scope : BindingScope.t;
  tagMap : gmap string string;
  valueConstructor : option Constructor
}.

(** [binding.type === BindingType.CONSTANT]. *)
Definition type_is (b : Binding) (ty : BindingType.t) : bool :=
  match type b with
  | Some ty' => BindingType.type_eqb ty' ty
  | None => false
  end.

(** [binding.scope === BindingScope.SINGLETON]. *)
Definition scope_is (b : Binding) (sc : BindingScope.t) : bool :=
  BindingScope.scope_eqb (scope b) sc.

(** Modelled from the spec: the registry of a context is a sequence of
    bindings with pairwise distinct keys, in the order they were added
    (section 6: [find(predicate) -> ordered sequence of Binding]). *)
Definition Registry := list Binding.

Definition find (pred : Binding -> bool) (reg : Registry) : list Binding :=
  List.filter pred reg.

(* ===================================================================== *)
(** * Application: discovery and ordering of life cycle observers         *)
(* ===================================================================== *)

Module Application.

(** The predicate given to [this.find] in
    [_findLifeCycleObserverBindings]. *)
Definition isLifeCycleObserverBinding (binding : Binding) : bool :=
  (type_is binding BindingType.CONSTANT
   || scope_is binding BindingScope.SINGLETON)
  && (Js.not_nullish (tagMap binding !! CoreBindings.LIFE_CYCLE_OBSERVER_TAG)
      || Js.truthy (tagMap binding !! CoreBindings.SERVER_TAG)).

(** [b.tagMap[CoreBindings.SERVER_TAG] || '']. *)
Definition serverTag (b : Binding) : string :=
  Js.or_else (tagMap b !! CoreBindings.SERVER_TAG) "".

(** The comparator of [_sortLifeCycleObserverBindings]. *)
Definition compareBindings (b1 b2 : Binding) : Z :=
  let tag1 := serverTag b1 in
  let tag2 := serverTag b2 in
  if Js.str_gt tag1 tag2 then 1%Z
  else if Js.str_lt tag1 tag2 then (-1)%Z
  else 0%Z.

(** Ascending order of the server tags, and having a given server tag. *)
Definition tag_le (b1 b2 : Binding) : Prop :=
  Js.str_le (serverTag b1) (serverTag b2) = true.

Definition has_server_tag (t : string) (b : Binding) : bool :=
  String.eqb (serverTag b) t.

Definition _sortLifeCycleObserverBindings (bindings : list Binding)
  : list Binding :=
  Js.sort compareBindings bindings.

Definition _findLifeCycleObserverBindings (reg : Registry) : list Binding :=
  let bindings := find isLifeCycleObserverBinding reg in
  _sortLifeCycleObserverBindings bindings.

(** What the predicate of [_findLifeCycleObserverBindings] asks of a
    binding. *)
Definition selectable (b : Binding) : Prop :=
  (type b = Some BindingType.CONSTANT \/ scope b = BindingScope.SINGLETON)
  /\ (is_Some (tagMap b !! CoreBindings.LIFE_CYCLE_OBSERVER_TAG)
      \/ exists v, tagMap b !! CoreBindings.SERVER_TAG = Some v /\ v <> "").

(** The two halves of that predicate: the binding holds a constant or is
    a singleton, and it carries a tag of a given name. *)
Definition constant_or_singleton (b : Binding) : Prop :=
  type b = Some BindingType.CONSTANT \/ scope b = BindingScope.SINGLETON.

Definition tagged_with (name : string) (b : Binding) : Prop :=
  is_Some (tagMap b !! name).

(** The selection in the words of the specification (section 4.1, step
    1): the scope is constant or singleton, and the tag map contains a
    "lifecycle-observer" tag or a "server" tag. *)
Definition selection_as_specified (b : Binding) : bool :=
  (scope_is b BindingScope.CONSTANT || scope_is b BindingScope.SINGLETON)
  && (bool_decide (is_Some (tagMap b !! CoreBindings.LIFE_CYCLE_OBSERVER_TAG))
      || bool_decide (is_Some (tagMap b !! CoreBindings.SERVER_TAG))).

End Application.

(* ===================================================================== *)
(** * Effectful code: state, failure and a trace of what was done         *)
(* ===================================================================== *)

(** What a rejected promise or a thrown exception carries. *)
Inductive Error :=
| TypeError (msg : string)
| DuplicateKeyError (key : string)
| UserError (payload : string).

Record Outcome (St Ev A : Type) := mkOutcome {
  result : Error + A;
  final : St;
  trace : list Ev
}.
Arguments mkOutcome {St Ev A} result final trace.
Arguments result {St Ev A} o.
Arguments final {St Ev A} o.
Arguments trace {St Ev A} o.

(** A computation with effects: run from a state, it returns a value or
    throws (an [async] function: its promise is fulfilled or rejected),
    leaves a state and has emitted a trace of events [Ev]. *)
Definition Eff (St Ev A : Type) : Type := St -> Outcome St Ev A.

Module Eff.
Section Ops.
Context {St Ev : Type}.

Definition ret {A} (a : A) : Eff St Ev A :=
  fun s => mkOutcome (inr a) s [].

(** [m] (awaited, when it is a promise) followed by [k]: a failure of
    [m] ends the function. *)
Definition andThen {A B} (m : Eff St Ev A) (k : A -> Eff St Ev B)
  : Eff St Ev B :=
  fun s =>
    let o := m s in
    match result o with
    | inl e => mkOutcome (inl e) (final o) (trace o)
    | inr a =>
        let o' := k a (final o) in
        mkOutcome (result o') (final o') (trace o ++ trace o')
    end.

Definition emit (ev : Ev) : Eff St Ev unit :=
  fun s => mkOutcome (inr tt) s [ev].

(** An external operation [f], logged by [ev] with what it settled to. *)
Definition call {A} (f : St -> (Error + A) * St)
    (ev : Error + A -> Ev) : Eff St Ev A :=
  fun s => let '(r, s') := f s in mkOutcome r s' [ev r].

(** [for (const x of xs) { body(x) }] with [await]s inside [body]. *)
Fixpoint for_of {A} (xs : list A) (body : A -> Eff St Ev unit)
  : Eff St Ev unit :=
  match xs with
  | [] => ret tt
  | x :: xs' => andThen (body x) (fun _ => for_of xs' body)
  end.
End Ops.
End Eff.

Declare Scope eff_scope.
Delimit Scope eff_scope with eff.
Notation "x <- m ;; k" := (Eff.andThen m (fun x => k))
  (at level 100, m at next level, right associativity) : eff_scope.
Notation "m ;;; k" := (Eff.andThen m (fun _ => k))
  (at level 100, right associativity) : eff_scope.

(** The two methods of a life cycle observer. *)
Inductive Method := MStart | MStop.

(** What [start] and [stop] do to the outside, in the order they do it:
    a call of [this.get(key)] with what the awaited promise settled to, a
    call of [observer.start()] or [observer.stop()] on the observer
    resolved for [key] with what it settled to, and the [debug] lines. *)
Inductive Event (V : Type) :=
| Debug (fmt : string) (args : list string)
| Get (key : string) (settled : Error + V)
| Invoke (m : Method) (key : string) (settled : Error + unit).
Arguments Debug {V} fmt args.
Arguments Get {V} key settled.
Arguments Invoke {V} m key settled.

(** The part of the running system that application.ts calls and that is
    not part of the sources: resolution of a key by the context
    ([this.get]), the guard [isLifeCycleObserver] of ./lifecycle, and the
    [start] and [stop] methods of resolved observers.  They are the
    parameters of the development. *)
Class Runtime (St V : Type) := {
  get : string -> St -> (Error + V) * St;
  isLifeCycleObserver : V -> bool;
  observer_start : V -> St -> (Error + unit) * St;
  observer_stop : V -> St -> (Error + unit) * St
}.

Module Lifecycle.
Import Application.
Section Run.
Context {St V : Type} `{Runtime St V}.
Local Open Scope eff_scope.

Definition debug (fmt : string) (args : list string)
  : Eff St (Event V) unit :=
  Eff.emit (Debug fmt args).

(** The body of the loop of [start]. *)
Definition start_binding (binding : Binding) : Eff St (Event V) unit :=
  observer <- Eff.call (get (key binding)) (Get (key binding)) ;;
  if isLifeCycleObserver observer then
    debug "Starting binding %s..." [key binding] ;;;
    Eff.call (observer_start observer) (Invoke MStart (key binding)) ;;;
    debug "Binding %s is now started." [key binding]
  else Eff.ret tt.

Definition start (reg : Registry) : Eff St (Event V) unit :=
  debug "Starting the application..." [] ;;;
  let bindings := _findLifeCycleObserverBindings reg in
  Eff.for_of bindings start_binding ;;;
  debug "The application is now started." [].

(** The body of the loop of [stop]. *)
Definition stop_binding (binding : Binding) : Eff St (Event V) unit :=
  observer <- Eff.call (get (key binding)) (Get (key binding)) ;;
  if isLifeCycleObserver observer then
    debug "Stopping binding %s..." [key binding] ;;;
    Eff.call (observer_stop observer) (Invoke MStop (key binding)) ;;;
    debug "Binding %s is now stopped" [key binding]
  else Eff.ret tt.

Definition stop (reg : Registry) : Eff St (Event V) unit :=
  debug "Stopping the application..." [] ;;;
  let bindings := _findLifeCycleObserverBindings reg in
  (* Stop in the reverse order *)
  Eff.for_of (Js.reverse bindings) stop_binding ;;;
  debug "The application is now stopped." [].

(** The two methods apart. *)
Definition other (m : Method) : Method :=
  match m with MStart => MStop | MStop => MStart end.

(** The sequence of bindings each operation iterates over. *)
Definition start_order (reg : Registry) : list Binding :=
  _findLifeCycleObserverBindings reg.

Definition stop_order (reg : Registry) : list Binding :=
  Js.reverse (_findLifeCycleObserverBindings reg).

Definition order (m : Method) (reg : Registry) : list Binding :=
  match m with
  | MStart => start_order reg
  | MStop => stop_order reg
  end.

(** [app.start()] or [app.stop()]. *)
Definition operation (m : Method) (reg : Registry) : Eff St (Event V) unit :=
  match m with
  | MStart => start reg
  | MStop => stop reg
  end.

(** ** Reading a trace *)

Definition Method_eqb (m1 m2 : Method) : bool :=
  match m1, m2 with
  | MStart, MStart | MStop, MStop => true
  | _, _ => false
  end.

(** Keys passed to [this.get], in order. *)
Definition got (t : list (Event V)) : list string :=
  flat_map (fun ev => match ev with Get k _ => [k] | _ => [] end) t.

(** Keys and values of the resolutions that succeeded. *)
Definition resolved (t : list (Event V)) : list (string * V) :=
  flat_map (fun ev => match ev with Get k (inr v) => [(k, v)] | _ => [] end) t.

(** Keys whose observer had the method [m] called. *)
Definition invoked (m : Method) (t : list (Event V)) : list string :=
  flat_map (fun ev => match ev with
                      | Invoke m' k _ => if Method_eqb m' m then [k] else []
                      | _ => []
                      end) t.

(** Keys whose observer had the method [m] called and fulfilled. *)
Definition fulfilled (m : Method) (t : list (Event V)) : list string :=
  flat_map (fun ev => match ev with
                      | Invoke m' k (inr _) => if Method_eqb m' m then [k] else []
                      | _ => []
                      end) t.

(** The resolutions of [t] whose value passes [isLifeCycleObserver]. *)
Definition capable (t : list (Event V)) : list string :=
  map fst (List.filter (fun kv => isLifeCycleObserver (snd kv)) (resolved t)).

(** A value that [this.get(k)] can resolve to. *)
Definition resolvable (k : string) (v : V) : Prop :=
  exists s s', get k s = (inr v, s').

(** The [debug] lines that open and close an operation. *)
Definition opening (m : Method) : string :=
  match m with
  | MStart => "Starting the application..."
  | MStop => "Stopping the application..."
  end.

Definition closing (m : Method) : string :=
  match m with
  | MStart => "The application is now started."
  | MStop => "The application is now stopped."
  end.

(** ** The shape of a run, turn by turn *)

Definition entering (m : Method) : string :=
  match m with
  | MStart => "Starting binding %s..."
  | MStop => "Stopping binding %s..."
  end.

Definition leaving (m : Method) : string :=
  match m with
  | MStart => "Binding %s is now started."
  | MStop => "Binding %s is now stopped"
  end.

Definition observer_method (m : Method) : V -> St -> (Error + unit) * St :=
  match m with
  | MStart => observer_start
  | MStop => observer_stop
  end.

(** One turn of either loop. *)
Definition turn (m : Method) (binding : Binding) : Eff St (Event V) unit :=
  match m with
  | MStart => start_binding binding
  | MStop => stop_binding binding
  end.

(** What a turn emits when nothing fails, for a key that resolves to [v]:
    the resolution, and for an observer the call between its two [debug]
    lines. *)
Definition block (m : Method) (kv : string * V) : list (Event V) :=
  Get (fst kv) (inr (snd kv)) ::
  (if isLifeCycleObserver (snd kv)
   then [Debug (entering m) [fst kv]; Invoke m (fst kv) (inr tt);
         Debug (leaving m) [fst kv]]
   else []).

(** What the turn that fails emits: the resolution was rejected
    ([None]), or the observer [v] rejected the call ([Some v]). *)
Definition failing (m : Method) (k : string) (e : Error) (at_call : option V)
  : list (Event V) :=
  match at_call with
  | None => [Get k (inl e)]
  | Some v => [Get k (inr v); Debug (entering m) [k]; Invoke m k (inl e)]
  end.
(** ** [getServer] *)

(** The key [getServer(target)] resolves: [target] is a server name (a
    string) or a server class. *)
Definition getServerKey (target : Constructor + string) : string :=
  match target with
  | inr name => (CoreBindings.SERVERS ++ "." ++ name)%string
  | inl ctor => (CoreBindings.SERVERS ++ "." ++ ctor_name ctor)%string
  end.

Definition getServer (target : Constructor + string) : Eff St (Event V) V :=
  let key := getServerKey target in
  Eff.call (get key) (Get key).

(** ** What the [debug] lines of a trace report *)

(** Keys reported by "Binding %s is now started." (or "... stopped"). *)
Definition reported (m : Method) (t : list (Event V)) : list string :=
  flat_map (fun ev => match ev with
                      | Debug fmt [k] => if String.eqb fmt (leaving m) then [k] else []
                      | _ => []
                      end) t.

(** Whether "The application is now started." (or "... stopped.") was
    logged. *)
Definition announced (m : Method) (t : list (Event V)) : bool :=
  existsb (fun ev => match ev with
                     | Debug fmt [] => String.eqb fmt (closing m)
                     | _ => false
                     end) t.
End Run.
End Lifecycle.

(* ===================================================================== *)
(** * Application: registration of controllers, servers and components    *)
(* ===================================================================== *)

(** Modelled from the spec: a component instance (./component is not part
    of the sources; section 3: a value object holding optional arrays of
    controller classes, server classes, and providers, an absent array
    being an empty one; the documentation comment of [component] shows
    the providers keyed by binding key). *)
Module Component.
Record t := mk {
  controllers : list Constructor;
  servers : list Constructor;
  providers : list (string * Constructor)
}.
End Component.

(** The behaviour of @loopback/context and ./lifecycle that registration
    relies on and that neither the sources nor the specification fix:
    the scope of a fresh binding, the value [.tag(name)] stores when it is
    given a name only, what instantiating a class gives, and whether a
    class exposes the life cycle capability. *)
Class Container := {
  default_scope : BindingScope.t;
  tag_value : string -> string;
  instantiate : Constructor -> Error + Component.t;
  isLifeCycleObserverClass : Constructor -> bool
}.

(** The keys of [CoreBindings] that the constructor and [setMetadata]
    bind; neither the sources nor the specification give them: they are
    parameters. *)
Class ApplicationKeys := {
  APPLICATION_INSTANCE : string;
  APPLICATION_CONFIG : string;
  APPLICATION_METADATA : string
}.

(** A reference to a binding object held by the registry: bindings are
    mutable objects that [bind] stores and returns, so that configuring
    the returned binding configures the registered one.  Keys are unique,
    and a key is that reference. *)
Definition BindingRef := string.

Module Context.
Section Api.
Context `{Container}.
Local Open Scope eff_scope.

(** Registration code emits [debug] lines only. *)
Definition Reg (A : Type) : Type := Eff Registry (string * list string) A.

Definition throw {A} (e : Error) : Reg A :=
  fun reg => mkOutcome (inl e) reg [].

Definition contains (k : string) (reg : Registry) : bool :=
  existsb (fun b => String.eqb (key b) k) reg.

Definition getBinding (k : string) (reg : Registry) : option Binding :=
  List.find (fun b => String.eqb (key b) k) reg.

(** [new Binding(key)]. *)
Definition newBinding (k : string) : Binding :=
  {| key := k; type := None; scope := default_scope;
     tagMap := ∅; valueConstructor := None |}.

(** Modelled from the spec: [bind(key)] (sections 3, 4.2 and 6): the
    registry enforces key uniqueness, a key colliding with an existing
    binding fails; otherwise a fresh binding is added and returned. *)
Definition bind (k : string) : Reg BindingRef :=
  fun reg =>
    if contains k reg
    then mkOutcome (inl (DuplicateKeyError k)) reg []
    else mkOutcome (inr k) (reg ++ [newBinding k]) [].

(** A method of the binding [ref] that changes it and returns it. *)
Definition configure (f : Binding -> Binding) (ref : BindingRef)
  : Reg BindingRef :=
  fun reg =>
    mkOutcome (inr ref)
      (map (fun b => if String.eqb (key b) ref then f b else b) reg) [].

(** Modelled from the spec: the chainable configuration of section 6,
    [.toClass(ctor)], [.inScope(scope)] and [.tag(tagName)], and
    [toProvider] for the providers of a component. *)
Definition Binding_toClass (ctor : Constructor) (b : Binding) : Binding :=
  {| key := key b; type := Some BindingType.CLASS; scope := scope b;
     tagMap := tagMap b; valueConstructor := Some ctor |}.

Definition Binding_toProvider (ctor : Constructor) (b : Binding) : Binding :=
  {| key := key b; type := Some BindingType.PROVIDER; scope := scope b;
     tagMap := tagMap b; valueConstructor := Some ctor |}.

Definition Binding_inScope (sc : BindingScope.t) (b : Binding) : Binding :=
  {| key := key b; type := type b; scope := sc;
     tagMap := tagMap b; valueConstructor := valueConstructor b |}.

Definition Binding_tag (name : string) (b : Binding) : Binding :=
  {| key := key b; type := type b; scope := scope b;
     tagMap := <[name := tag_value name]> (tagMap b);
     valueConstructor := valueConstructor b |}.

(** Modelled from the spec: [.to(value)] (section 6) makes the binding a
    constant (section 3); the value itself is not represented. *)
Definition Binding_to (b : Binding) : Binding :=
  {| key := key b; type := Some BindingType.CONSTANT; scope := scope b;
     tagMap := tagMap b; valueConstructor := None |}.

Definition to := configure Binding_to.

Definition toClass (ctor : Constructor) := configure (Binding_toClass ctor).
Definition toProvider (ctor : Constructor) := configure (Binding_toProvider ctor).
Definition inScope (sc : BindingScope.t) := configure (Binding_inScope sc).
Definition tag (name : string) := configure (Binding_tag name).

(** [binding.apply(template)]. *)
Definition apply (template : BindingRef -> Reg BindingRef)
    (ref : BindingRef) : Reg BindingRef :=
  template ref.

(** Modelled from the spec: [asLifeCycleObserverBinding] of
    ./lifecycle, the life cycle observer wiring (section 4.2): the
    binding is tagged as a life cycle observer. *)
Definition asLifeCycleObserverBinding (ref : BindingRef) : Reg BindingRef :=
  tag CoreBindings.LIFE_CYCLE_OBSERVER_TAG ref.

(** Modelled from the spec: [getSync(key)], the synchronous variant of
    [get] for mount-time use (section 6), on a class binding: the
    class is instantiated, which may throw. *)
Definition getSync (k : string) : Reg Component.t :=
  fun reg =>
    match getBinding k reg with
    | None => mkOutcome (inl (UserError k)) reg []
    | Some b =>
        match valueConstructor b with
        | None => mkOutcome (inl (UserError k)) reg []
        | Some ctor => mkOutcome (instantiate ctor) reg []
        end
    end.
End Api.
End Context.

Module Registration.
Import Context.
Section App.
Context `{Container}.
Local Open Scope eff_scope.

Definition debugLine (fmt : string) (args : list string) : Reg unit :=
  Eff.emit (fmt, args).

(** [name || ctor.name] *)
Definition nameOr (name : option string) (ctor : Constructor) : string :=
  Js.or_else name (ctor_name ctor).

Definition controller (controllerCtor : Constructor) (name : option string)
  : Reg BindingRef :=
  let name := nameOr name controllerCtor in
  let key := ("controllers." ++ name)%string in
  debugLine "Adding controller %s" [name] ;;;
  b <- bind key ;;
  b <- toClass controllerCtor b ;;
  tag CoreBindings.CONTROLLER_TAG b.

Definition server (ctor : Constructor) (name : option string)
  : Reg BindingRef :=
  let suffix := nameOr name ctor in
  let key := (CoreBindings.SERVERS ++ "." ++ suffix)%string in
  debugLine "Adding server %s" [suffix] ;;;
  b <- bind key ;;
  b <- toClass ctor b ;;
  b <- tag CoreBindings.SERVER_TAG b ;;
  apply asLifeCycleObserverBinding b.

(** [ctors.map(ctor => this.server(ctor))] *)
Fixpoint servers (ctors : list Constructor) : Reg (list BindingRef) :=
  match ctors with
  | [] => Eff.ret []
  | ctor :: ctors' =>
      b <- server ctor None ;;
      bs <- servers ctors' ;;
      Eff.ret (b :: bs)
  end.

(** Modelled from the spec: [mountComponent] of ./component (section
    4.2): each controller, server and provider declared on the
    instance goes through its single-item registration operation. *)
Definition mountComponent (instance : Component.t) : Reg unit :=
  Eff.for_of (Component.controllers instance)
    (fun c => controller c None ;;; Eff.ret tt) ;;;
  Eff.for_of (Component.servers instance)
    (fun c => server c None ;;; Eff.ret tt) ;;;
  Eff.for_of (Component.providers instance)
    (fun kc => b <- bind (fst kc) ;; toProvider (snd kc) b ;;; Eff.ret tt).

Definition componentKey (componentCtor : Constructor) (name : option string)
  : string :=
  (CoreBindings.COMPONENTS ++ "." ++ nameOr name componentCtor)%string.

Definition component (componentCtor : Constructor) (name : option string)
  : Reg unit :=
  let name := nameOr name componentCtor in
  let componentKey := (CoreBindings.COMPONENTS ++ "." ++ name)%string in
  binding <- bind componentKey ;;
  binding <- toClass componentCtor binding ;;
  binding <- inScope BindingScope.SINGLETON binding ;;
  binding <- tag CoreBindings.COMPONENT_TAG binding ;;
  (if isLifeCycleObserverClass componentCtor
   then apply asLifeCycleObserverBinding binding
   else Eff.ret binding) ;;;
  (* Assuming components can be synchronously instantiated *)
  instance <- getSync componentKey ;;
  mountComponent instance.
(** The constructor of [Application], after [super()] has made the
    context: it binds the application and its options as constants. *)
Definition constructor `{ApplicationKeys} : Reg unit :=
  (* Bind to self to allow injection of application context in other modules. *)
  b <- bind APPLICATION_INSTANCE ;; to b ;;;
  (* Make options available to other modules as well. *)
  b <- bind APPLICATION_CONFIG ;; to b ;;;
  Eff.ret tt.

Definition setMetadata `{ApplicationKeys} : Reg unit :=
  b <- bind APPLICATION_METADATA ;; to b ;;; Eff.ret tt.

(** The binding [bind(k).to(value)] leaves. *)
Definition constantBinding (k : string) : Binding := Binding_to (newBinding k).

(** ** What registration is expected to leave in the registry *)

Definition controllerKey (ctor : Constructor) (name : option string) : string :=
  ("controllers." ++ nameOr name ctor)%string.

Definition serverKey (ctor : Constructor) (name : option string) : string :=
  (CoreBindings.SERVERS ++ "." ++ nameOr name ctor)%string.

Definition controllerBinding (k : string) (ctor : Constructor) : Binding :=
  Binding_tag CoreBindings.CONTROLLER_TAG (Binding_toClass ctor (newBinding k)).

Definition serverBinding (k : string) (ctor : Constructor) : Binding :=
  Binding_tag CoreBindings.LIFE_CYCLE_OBSERVER_TAG
    (Binding_tag CoreBindings.SERVER_TAG
       (Binding_toClass ctor (newBinding k))).

Definition providerBinding (k : string) (ctor : Constructor) : Binding :=
  Binding_toProvider ctor (newBinding k).

Definition componentBinding (k : string) (ctor : Constructor) : Binding :=
  let b := Binding_tag CoreBindings.COMPONENT_TAG
             (Binding_inScope BindingScope.SINGLETON
                (Binding_toClass ctor (newBinding k))) in
  if isLifeCycleObserverClass ctor
  then Binding_tag CoreBindings.LIFE_CYCLE_OBSERVER_TAG b
  else b.

(** The artifacts a component instance declares, in the order
    [mountComponent] registers them. *)
Inductive Artifact :=
| AController (ctor : Constructor)
| AServer (ctor : Constructor)
| AProvider (k : string) (ctor : Constructor).

Definition artifacts (instance : Component.t) : list Artifact :=
  map AController (Component.controllers instance)
  ++ map AServer (Component.servers instance)
  ++ map (fun kc => AProvider (fst kc) (snd kc)) (Component.providers instance).

Definition artifactKey (a : Artifact) : string :=
  match a with
  | AController c => controllerKey c None
  | AServer c => serverKey c None
  | AProvider k _ => k
  end.

Definition artifactBinding (a : Artifact) : Binding :=
  match a with
  | AController c => controllerBinding (controllerKey c None) c
  | AServer c => serverBinding (serverKey c None) c
  | AProvider k c => providerBinding k c
  end.

Definition registerArtifact (a : Artifact) : Reg unit :=
  match a with
  | AController c => controller c None ;;; Eff.ret tt
  | AServer c => server c None ;;; Eff.ret tt
  | AProvider k c => b <- bind k ;; toProvider c b ;;; Eff.ret tt
  end.

(** A step that registers the binding [b] under the key [k]: it throws
    when the key is bound already and adds [b] otherwise. *)
Definition registers (step : Reg unit) (k : string) (b : Binding) : Prop :=
  forall reg,
    result (step reg)
    = (if contains k reg then inl (DuplicateKeyError k) else inr tt)
    /\ final (step reg) = (if contains k reg then reg else reg ++ [b]).

(** Keys none of which is bound in [reg] and no two of which are equal. *)
Definition fresh (ks : list string) (reg : Registry) : Prop :=
  NoDup ks /\ Forall (fun k => contains k reg = false) ks.

End App.
End Registration.

(* ===================================================================== *)
(** * examples/todo/src/migrate.ts                                        *)
(* ===================================================================== *)

Module Migrate.

(** The options object given to [app.migrateSchema]: the object literal
    [{dropExistingSchema}] (datasource.ts names the option
    [dropExistingSchema]) or [{rebuild}] (migrateable.repository.ts
    names it [rebuild]); a property that is not set is [None]. *)
Record SchemaMigrationOptions := mkOptions {
  dropExistingSchema : option bool;
  rebuild : option bool
}.

(** The option that asks to drop existing tables and recreate them from
    scratch, under either of its names. *)
Definition dropAndRecreate (o : SchemaMigrationOptions) : option bool :=
  match dropExistingSchema o with
  | Some b => Some b
  | None => rebuild o
  end.

Inductive Event :=
| ConsoleLog (fmt : string) (args : list string)
| New (settled : Error + unit)
| Boot (settled : Error + unit)
| MigrateSchema (options : SchemaMigrationOptions) (settled : Error + unit)
| Exit (code : Z).

(** [TodoListApplication] (./application is not part of the sources):
    its constructor and the two methods [migrate] calls are parameters. *)
Class TodoListApplication (St : Type) := {
  new : St -> (Error + unit) * St;
  boot : St -> (Error + unit) * St;
  migrateSchema : SchemaMigrationOptions -> St -> (Error + unit) * St
}.

Section Script.
Context {St : Type} `{TodoListApplication St}.
Local Open Scope eff_scope.

(** [migrate] as of the first revision of the file (it passes
    [{dropExistingSchema}] and exits explicitly). *)
Definition migrate (args : list string) : Eff St Event unit :=
  let dropExistingSchema := Js.includes args "--rebuild" in
  Eff.emit (ConsoleLog "Migrating schemas (%s)"
              [if dropExistingSchema then "rebuild" else "update"]) ;;;
  Eff.call new New ;;;
  Eff.call boot Boot ;;;
  (let options := {| dropExistingSchema := Some dropExistingSchema;
                     rebuild := None |} in
   Eff.call (migrateSchema options) (MigrateSchema options)) ;;;
  (* Connectors usually keep a pool of opened connections,
     this keeps the process running even after all works is done.
     We need to exit explicitly. *)
  Eff.emit (Exit 0).

(** [migrate] as of the second revision (it passes [{rebuild}]). *)
Definition migrate' (args : list string) : Eff St Event unit :=
  let rebuild := Js.includes args "--rebuild" in
  Eff.emit (ConsoleLog "Migrating schemas (%s)"
              [if rebuild then "rebuild" else "update"]) ;;;
  Eff.call new New ;;;
  Eff.call boot Boot ;;;
  (let options := {| dropExistingSchema := None;
                     rebuild := Some rebuild |} in
   Eff.call (migrateSchema options) (MigrateSchema options)).

(** The options of the [migrateSchema] calls of a trace, in order. *)
Definition migrateSchemaCalls (t : list Event)
  : list SchemaMigrationOptions :=
  flat_map (fun ev => match ev with MigrateSchema o _ => [o] | _ => [] end) t.
(** ** The script around [migrate] *)

(** What the script does: what [migrate] does, and the [console.error] of
    the handler given to [.catch]. *)
Inductive ScriptEvent :=
| Script (ev : Event)
| ConsoleError (msg : string) (err : Error).

(** [p.catch(handler)]: the handler runs when [p] is rejected, and the
    promise it returns is fulfilled. *)
Definition catch (p : Eff St Event unit)
    (handler : Error -> list ScriptEvent) : Eff St ScriptEvent unit :=
  fun s =>
    let o := p s in
    mkOutcome (inr tt) (final o)
      (map Script (trace o)
       ++ match result o with
          | inl err => handler err
          | inr _ => []
          end).

Definition onError (err : Error) : list ScriptEvent :=
  [ConsoleError "Cannot migrate database schema" err; Script (Exit 1)].

(** [migrate(process.argv).catch(err => {...})], for each revision. *)
Definition main (argv : list string) : Eff St ScriptEvent unit :=
  catch (migrate argv) onError.

Definition main' (argv : list string) : Eff St ScriptEvent unit :=
  catch (migrate' argv) onError.

(** The codes given to [process.exit], in order. *)
Definition exitCodes (t : list ScriptEvent) : list Z :=
  flat_map (fun ev => match ev with Script (Exit c) => [c] | _ => [] end) t.

(** The errors given to [console.error]. *)
Definition errorsLogged (t : list ScriptEvent) : list Error :=
  flat_map (fun ev => match ev with ConsoleError _ e => [e] | _ => [] end) t.

End Script.
End Migrate.

(* ===================================================================== *)
(** * repositories/migrateable.repository.ts                              *)
(* ===================================================================== *)

Module MigrateableRepository.

(** A JavaScript value as [isMigrateableRepository] sees one: the
    primitives, and objects and functions with their properties (own and
    inherited ones alike, as data properties). *)
#[warnings="-register-all"]
Inductive JsValue :=
| JsUndefined
| JsNull
| JsBoolean (b : bool)
| JsNumber (n : Z)
| JsString (s : string)
| JsFunction (props : list (string * JsValue))
| JsObject (props : list (string * JsValue)).

Fixpoint assoc (name : string) (props : list (string * JsValue))
  : option JsValue :=
  match props with
  | [] => None
  | (k, v) :: props' => if String.eqb k name then Some v else assoc name props'
  end.

(** [v.name]: a TypeError on [null] and [undefined]; [undefined] for a
    property that the value does not have. *)
Definition getProperty (v : JsValue) (name : string) : Error + JsValue :=
  match v with
  | JsUndefined =>
      inl (TypeError ("Cannot read property '" ++ name ++ "' of undefined"))
  | JsNull =>
      inl (TypeError ("Cannot read property '" ++ name ++ "' of null"))
  | JsBoolean _ | JsNumber _ | JsString _ => inr JsUndefined
  | JsFunction props | JsObject props =>
      inr (match assoc name props with Some x => x | None => JsUndefined end)
  end%string.

Definition typeof (v : JsValue) : string :=
  match v with
  | JsUndefined => "undefined"
  | JsNull => "object"
  | JsBoolean _ => "boolean"
  | JsNumber _ => "number"
  | JsString _ => "string"
  | JsFunction _ => "function"
  | JsObject _ => "object"
  end.

Definition isMigrateableRepository (repo : JsValue) : Error + bool :=
  match getProperty repo "migrateSchema" with
  | inl e => inl e
  | inr m => inr (String.eqb (typeof m) "function")
  end.

(** The repository interface apart from [migrateSchema]: any other
    property. *)
Definition sameMigrateSchema (r1 r2 : JsValue) : Prop :=
  getProperty r1 "migrateSchema" = getProperty r2 "migrateSchema".

End MigrateableRepository.

(* ===================================================================== *)
(** * A small application, for examples                                   *)
(* ===================================================================== *)

Module Demo.
Import Application Lifecycle.

Definition tagged (tags : list (string * string)) : gmap string string :=
  list_to_map tags.

(** The scenario of section 8: A (singleton, tagged as a life cycle
    observer, no server tag), B (singleton, server tag "v1"), C (singleton,
    server tag "v2") and D (transient, server tag "v0"). *)
Definition A : Binding :=
  {| key := "observers.A"; type := Some BindingType.CLASS;
     scope := BindingScope.SINGLETON;
     tagMap := tagged [(CoreBindings.LIFE_CYCLE_OBSERVER_TAG,
                        CoreBindings.LIFE_CYCLE_OBSERVER_TAG)];
     valueConstructor := None |}.

Definition B : Binding :=
  {| key := "servers.B"; type := Some BindingType.CLASS;
     scope := BindingScope.SINGLETON;
     tagMap := tagged [(CoreBindings.SERVER_TAG, "v1")];
     valueConstructor := None |}.

Definition C : Binding :=
  {| key := "servers.C"; type := Some BindingType.CLASS;
     scope := BindingScope.SINGLETON;
     tagMap := tagged [(CoreBindings.SERVER_TAG, "v2")];
     valueConstructor := None |}.

Definition D : Binding :=
  {| key := "servers.D"; type := Some BindingType.CLASS;
     scope := BindingScope.TRANSIENT;
     tagMap := tagged [(CoreBindings.SERVER_TAG, "v0")];
     valueConstructor := None |}.

Definition registry : Registry := [C; D; A; B].

(** A singleton server binding with the server tag [t]. *)
Definition serverTagged (k t : string) : Binding :=
  {| key := k; type := Some BindingType.CLASS;
     scope := BindingScope.SINGLETON;
     tagMap := tagged [(CoreBindings.SERVER_TAG, t)];
     valueConstructor := None |}.

(** A singleton whose server tag is the empty string, and nothing else. *)
Definition blank : Binding :=
  {| key := "servers.blank"; type := Some BindingType.CLASS;
     scope := BindingScope.SINGLETON;
     tagMap := tagged [(CoreBindings.SERVER_TAG, "")];
     valueConstructor := None |}.

(** A constant value bound in the transient scope and tagged as a life
    cycle observer. *)
Definition constant : Binding :=
  {| key := "observers.constant"; type := Some BindingType.CONSTANT;
     scope := BindingScope.TRANSIENT;
     tagMap := tagged [(CoreBindings.LIFE_CYCLE_OBSERVER_TAG,
                        CoreBindings.LIFE_CYCLE_OBSERVER_TAG)];
     valueConstructor := None |}.

(** Resolved values: whether they expose the life cycle capability, and
    what their [start] and [stop] settle to. *)
Record Observer := mkObserver {
  lifecycle : bool;
  on_start : Error + unit;
  on_stop : Error + unit
}.

Definition healthy : Observer := mkObserver true (inr tt) (inr tt).
Definition passive : Observer := mkObserver false (inr tt) (inr tt).
Definition broken : Observer :=
  mkObserver true (inl (UserError "port in use")) (inl (UserError "hung")).

Fixpoint lookup_key (k : string) (table : list (string * Observer))
  : option Observer :=
  match table with
  | [] => None
  | (k', v) :: table' => if String.eqb k' k then Some v else lookup_key k table'
  end.

(** A running system whose state counts the calls made so far. *)
Definition runtime (table : list (string * Observer)) : Runtime nat Observer :=
  {| get := fun k n =>
       (match lookup_key k table with
        | Some v => inr v
        | None => inl (UserError k)
        end, S n);
     isLifeCycleObserver := lifecycle;
     observer_start := fun v n => (on_start v, S n);
     observer_stop := fun v n => (on_stop v, S n) |}.

Definition all_healthy : list (string * Observer) :=
  [("observers.A", healthy); ("servers.B", healthy); ("servers.C", healthy);
   ("servers.D", healthy); ("observers.constant", healthy)].

Definition B_broken : list (string * Observer) :=
  [("observers.A", healthy); ("servers.B", broken); ("servers.C", healthy)].

Definition B_wont_start : list (string * Observer) :=
  [("servers.B", mkObserver true (inl (UserError "port in use")) (inr tt));
   ("servers.C", healthy)].

Definition C_missing : list (string * Observer) :=
  [("observers.A", healthy); ("servers.B", healthy)].

Definition A_passive : list (string * Observer) :=
  [("observers.A", passive); ("servers.B", healthy); ("servers.C", healthy)].

(** Classes, and a container for them. *)
Definition RestServer : Constructor := mkConstructor "RestServer" 1.
Definition GRPCServer : Constructor := mkConstructor "GRPCServer" 2.
Definition ProductController : Constructor := mkConstructor "ProductController" 3.
Definition AuthStrategy : Constructor := mkConstructor "AuthStrategy" 4.
Definition ProductComponent : Constructor := mkConstructor "ProductComponent" 5.
Definition CacheComponent : Constructor := mkConstructor "CacheComponent" 6.
Definition BrokenComponent : Constructor := mkConstructor "BrokenComponent" 7.
Definition ClashingComponent : Constructor := mkConstructor "ClashingComponent" 8.

Definition container : Container :=
  {| default_scope := BindingScope.TRANSIENT;
     tag_value := fun name => name;
     instantiate := fun ctor =>
       match ctor_id ctor with
       | 5 => inr (Component.mk [ProductController] [RestServer]
                     [("authentication.strategy", AuthStrategy)])
       | 7 => inl (UserError "constructor failed")
       | 8 => inr (Component.mk [ProductController] [] [])
       | _ => inr (Component.mk [] [] [])
       end;
     isLifeCycleObserverClass := fun ctor => Nat.eqb (ctor_id ctor) 6 |}.

(** The same container, with fresh bindings in singleton scope. *)
Definition singletons : Container :=
  {| default_scope := BindingScope.SINGLETON;
     tag_value := @tag_value container;
     instantiate := @instantiate container;
     isLifeCycleObserverClass := @isLifeCycleObserverClass container |}.

Definition applicationKeys : ApplicationKeys :=
  {| APPLICATION_INSTANCE := "application.instance";
     APPLICATION_CONFIG := "application.config";
     APPLICATION_METADATA := "application.metadata" |}.


(** An application whose constructor, [boot] and [migrateSchema] succeed;
    the state counts the calls. *)
Definition todoApp : Migrate.TodoListApplication nat :=
  {| Migrate.new := fun n => (inr tt, S n);
     Migrate.boot := fun n => (inr tt, S n);
     Migrate.migrateSchema := fun _ n => (inr tt, S n) |}.

(** Values given to [isMigrateableRepository]. *)
Definition bareMigrator : MigrateableRepository.JsValue :=
  MigrateableRepository.JsObject
    [("migrateSchema", MigrateableRepository.JsFunction [])].

Definition crudRepository : MigrateableRepository.JsValue :=
  MigrateableRepository.JsObject
    [("find", MigrateableRepository.JsFunction []);
     ("create", MigrateableRepository.JsFunction [])].

Definition flaggedRepository : MigrateableRepository.JsValue :=
  MigrateableRepository.JsObject
    [("find", MigrateableRepository.JsFunction []);
     ("migrateSchema", MigrateableRepository.JsBoolean true)].

End Demo.

(* ===================================================================== *)
(** * Facts about the JavaScript primitives                               *)
(* ===================================================================== *)

Module JsFacts.

Lemma units_compare_refl (u : list N) : Js.units_compare u u = Eq.
Proof.
  induction u as [|x u IH]; simpl; [reflexivity|].
  now rewrite N.compare_refl.
Qed.

Lemma units_compare_antisym (u1 u2 : list N) :
  Js.units_compare u1 u2 = CompOpp (Js.units_compare u2 u1).
Proof.
  revert u2. induction u1 as [|x u1 IH]; intros [|y u2]; simpl;
    try reflexivity.
  rewrite (N.compare_antisym y x).
  destruct (y ?= x)%N; simpl; [apply IH | reflexivity | reflexivity].
Qed.

Lemma units_compare_eq (u1 u2 : list N) :
  Js.units_compare u1 u2 = Eq -> u1 = u2.
Proof.
  revert u2. induction u1 as [|x u1 IH]; intros [|y u2]; simpl;
    try discriminate; [reflexivity|].
  destruct (x ?= y)%N eqn:Hxy; try discriminate.
  intros Hu. apply N.compare_eq in Hxy. subst y. f_equal. now apply IH.
Qed.

(** The comparison computes the order of the language definition. *)
Lemma units_compare_lt (u1 u2 : list N) :
  Js.units_compare u1 u2 = Lt <-> Js.lex_lt u1 u2.
Proof.
  split.
  - revert u2. induction u1 as [|x u1 IH]; intros [|y u2]; simpl;
      try discriminate; [constructor|].
    destruct (x ?= y)%N eqn:Hxy; try discriminate.
    + apply N.compare_eq in Hxy. subst y. intros Hu.
      apply Js.lex_lt_same. now apply IH.
    + intros _. apply Js.lex_lt_differ. now apply N.compare_lt_iff.
  - induction 1 as [y u|x y u1 u2 Hxy|x u1 u2 Hu IH]; simpl.
    + reflexivity.
    + apply N.compare_lt_iff in Hxy. now rewrite Hxy.
    + now rewrite N.compare_refl.
Qed.

Lemma lex_lt_trans (u1 u2 u3 : list N) :
  Js.lex_lt u1 u2 -> Js.lex_lt u2 u3 -> Js.lex_lt u1 u3.
Proof.
  intros H12. revert u3.
  induction H12 as [y u|x y u1 u2 Hxy|x u1 u2 Hu IH]; intros u3 H23;
    inversion H23; subst.
  - constructor.
  - constructor.
  - apply Js.lex_lt_differ. lia.
  - now apply Js.lex_lt_differ.
  - now apply Js.lex_lt_differ.
  - apply Js.lex_lt_same. now apply IH.
Qed.

Lemma str_le_lex (s1 s2 : string) :
  Js.str_le s1 s2 = true
  <-> Js.lex_le (Js.code_units s1) (Js.code_units s2).
Proof.
  unfold Js.str_le, Js.str_gt, Js.str_lt, Js.str_compare, Js.lex_le.
  rewrite (units_compare_antisym (Js.code_units s2) (Js.code_units s1)).
  destruct (Js.units_compare (Js.code_units s1) (Js.code_units s2)) eqn:Hc;
    simpl.
  - apply units_compare_eq in Hc. tauto.
  - apply units_compare_lt in Hc. tauto.
  - split; [discriminate|]. intros [Heq|Hlt].
    + rewrite Heq, units_compare_refl in Hc. discriminate.
    + apply units_compare_lt in Hlt. congruence.
Qed.

Lemma str_lt_le (a b : string) : Js.str_lt a b = negb (Js.str_le b a).
Proof. unfold Js.str_le, Js.str_gt. now rewrite negb_involutive. Qed.

Lemma str_le_refl (s : string) : Js.str_le s s = true.
Proof. apply str_le_lex. now left. Qed.

Lemma str_le_trans (a b c : string) :
  Js.str_le a b = true -> Js.str_le b c = true -> Js.str_le a c = true.
Proof.
  rewrite !str_le_lex. unfold Js.lex_le.
  intros [->|Hab] [<-|Hbc]; try tauto.
  right. now apply lex_lt_trans with (Js.code_units b).
Qed.

Lemma str_le_total (a b : string) :
  Js.str_le a b = true \/ Js.str_le b a = true.
Proof.
  unfold Js.str_le, Js.str_gt, Js.str_lt, Js.str_compare.
  rewrite (units_compare_antisym (Js.code_units b) (Js.code_units a)).
  destruct (Js.units_compare (Js.code_units a) (Js.code_units b)); simpl;
    tauto.
Qed.

(** Every byte gives at least one code unit. *)
Lemma utf16_cons (b : N) (r : list N) : Js.utf16 (b :: r) <> [].
Proof.
  destruct r as [|b1 [|b2 [|b3 r3]]]; cbn [Js.utf16];
    repeat match goal with
           | |- context [if ?c then _ else _] => destruct c
           end; discriminate.
Qed.

Lemma code_units_empty (s : string) : Js.code_units s = [] -> s = "".
Proof.
  destruct s as [|c s]; [reflexivity|]. unfold Js.code_units. simpl map.
  intros Hu. now apply utf16_cons in Hu.
Qed.

Lemma str_le_empty (s : string) : Js.str_le "" s = true.
Proof.
  apply str_le_lex. change (Js.code_units "") with (@nil N).
  destruct (Js.code_units s); [now left | right; constructor].
Qed.

Lemma str_le_empty_inv (s : string) : Js.str_le s "" = true -> s = "".
Proof.
  rewrite str_le_lex. change (Js.code_units "") with (@nil N).
  intros [Heq|Hlt]; [now apply code_units_empty | inversion Hlt].
Qed.

Lemma truthy_Some (v : option string) :
  Js.truthy v = true <-> exists s, v = Some s /\ s <> "".
Proof.
  destruct v as [s|]; simpl.
  - rewrite negb_true_iff, String.eqb_neq. split.
    + intros Hs. now exists s.
    + now intros [s' [[= <-] Hs]].
  - split; [discriminate | now intros [s [? _]]].
Qed.

Lemma not_nullish_Some (v : option string) :
  Js.not_nullish v = true <-> is_Some v.
Proof.
  destruct v; simpl; split; intros Hv; done.
Qed.

Lemma includes_In (xs : list string) (x : string) :
  Js.includes xs x = true <-> In x xs.
Proof.
  unfold Js.includes. rewrite existsb_exists. split.
  - intros [y [Hy Heq]]. apply String.eqb_eq in Heq. now subst.
  - intros Hx. exists x. split; [assumption | apply String.eqb_refl].
Qed.

Lemma filter_sublist {A} (P : A -> bool) (l : list A) :
  sublist (List.filter P l) l.
Proof.
  induction l as [|x l IH]; simpl; [constructor|].
  destruct (P x); now constructor.
Qed.

Section SortFacts.
Context {A : Type} (cmp : A -> A -> Z).

Lemma sort_insert_perm (x : A) (l : list A) :
  Permutation (Js.sort_insert cmp x l) (x :: l).
Proof.
  induction l as [|y l IH]; simpl; [reflexivity|].
  destruct (cmp x y <=? 0)%Z; [reflexivity|].
  rewrite IH. apply perm_swap.
Qed.

Lemma sort_perm (l : list A) : Permutation (Js.sort cmp l) l.
Proof.
  induction l as [|x l IH]; simpl; [reflexivity|].
  rewrite sort_insert_perm. now apply perm_skip.
Qed.

Lemma sort_In (l : list A) (x : A) : In x (Js.sort cmp l) <-> In x l.
Proof.
  split; apply Permutation_in; [apply sort_perm | symmetry; apply sort_perm].
Qed.

(** Elements of one class are kept in their order, whatever the classes
    are, as long as two elements of a class never compare as "after". *)
Lemma sort_insert_filter (P : A -> bool) (x : A) (l : list A) :
  (forall a b, P a = true -> P b = true -> (cmp a b <= 0)%Z) ->
  List.filter P (Js.sort_insert cmp x l)
  = if P x then x :: List.filter P l else List.filter P l.
Proof.
  intros HP. induction l as [|y l IH]; simpl; [reflexivity|].
  destruct (cmp x y <=? 0)%Z eqn:Hxy; simpl; [reflexivity|].
  rewrite IH. apply Z.leb_gt in Hxy.
  destruct (P x) eqn:Px, (P y) eqn:Py; try reflexivity.
  specialize (HP x y Px Py). lia.
Qed.

Lemma sort_stable (P : A -> bool) (l : list A) :
  (forall a b, P a = true -> P b = true -> (cmp a b <= 0)%Z) ->
  List.filter P (Js.sort cmp l) = List.filter P l.
Proof.
  intros HP. induction l as [|x l IH]; simpl; [reflexivity|].
  rewrite sort_insert_filter by assumption. now rewrite IH.
Qed.

Hypothesis cmp_flip : forall x y, (0 < cmp x y)%Z -> (cmp y x <= 0)%Z.
Hypothesis cmp_trans : forall x y z, Js.precedes cmp x y -> Js.precedes cmp y z -> Js.precedes cmp x z.

Lemma sort_insert_sorted (x : A) (l : list A) :
  StronglySorted (Js.precedes cmp) l -> StronglySorted (Js.precedes cmp) (Js.sort_insert cmp x l).
Proof using cmp_flip cmp_trans.
  induction 1 as [|y l Hl IH Hy]; simpl.
  - repeat constructor.
  - destruct (cmp x y <=? 0)%Z eqn:Hxy.
    + apply Z.leb_le in Hxy. constructor; [now constructor|].
      constructor; [exact Hxy|].
      eapply Forall_impl; [exact Hy|]. intros z Hz. now apply cmp_trans with y.
    + apply Z.leb_gt in Hxy. constructor; [exact IH|].
      apply List.Forall_forall. intros z Hz.
      apply (Permutation_in _ (sort_insert_perm x l)) in Hz.
      destruct Hz as [<-|Hz]; [now apply cmp_flip|].
      now apply (proj1 (List.Forall_forall _ _) Hy).
Qed.

Lemma sort_sorted (l : list A) : StronglySorted (Js.precedes cmp) (Js.sort cmp l).
Proof using cmp_flip cmp_trans.
  induction l as [|x l IH]; simpl; [constructor|].
  now apply sort_insert_sorted.
Qed.

Lemma precedes_refl (x : A) : Js.precedes cmp x x.
Proof using cmp_flip.
  unfold Js.precedes. destruct (Z_lt_le_dec 0 (cmp x x)) as [Hlt|Hle];
    [now apply cmp_flip | exact Hle].
Qed.

Lemma tied_refl (x : A) : Js.tied cmp x x = true.
Proof using cmp_flip.
  unfold Js.tied. pose proof (precedes_refl x) as Hx. unfold Js.precedes in Hx.
  apply Z.leb_le in Hx. now rewrite Hx.
Qed.

Lemma tied_precedes (x y : A) :
  Js.tied cmp x y = true <-> Js.precedes cmp x y /\ Js.precedes cmp y x.
Proof. unfold Js.tied, Js.precedes. now rewrite andb_true_iff, !Z.leb_le. Qed.

Lemma filter_tied_In (x : A) (l : list A) :
  In x l -> In x (List.filter (Js.tied cmp x) l).
Proof using cmp_flip. intros Hx. apply filter_In. split; [exact Hx | apply tied_refl]. Qed.

(** Two ascending arrangements that keep the elements of every class of
    tied elements in the same order are the same list. *)
Lemma sorted_stable_unique (l1 l2 : list A) :
  StronglySorted (Js.precedes cmp) l1 ->
  StronglySorted (Js.precedes cmp) l2 ->
  (forall x, List.filter (Js.tied cmp x) l1 = List.filter (Js.tied cmp x) l2) ->
  l1 = l2.
Proof using cmp_flip.
  intros Hs1. revert l2. induction Hs1 as [|a l1 Hs1 IH Ha]; intros l2 Hs2 Heq.
  - destruct l2 as [|b l2]; [reflexivity|].
    specialize (Heq b). simpl in Heq. rewrite tied_refl in Heq. discriminate.
  - destruct Hs2 as [|b l2 Hs2 Hb].
    { specialize (Heq a). simpl in Heq. rewrite tied_refl in Heq. discriminate. }
    assert (Hab : a = b).
    { pose proof (Heq a) as Hfa. simpl in Hfa. rewrite tied_refl in Hfa.
      destruct (Js.tied cmp a b) eqn:Htied; [now injection Hfa|].
      exfalso.
      assert (Ha2 : In a l2).
      { assert (Hin : In a (List.filter (Js.tied cmp a) l2))
          by (rewrite <- Hfa; now left).
        now apply filter_In in Hin. }
      assert (Hb1 : In b (a :: l1)).
      { assert (Hin : In b (List.filter (Js.tied cmp b) (a :: l1)))
          by (rewrite (Heq b); apply filter_tied_In; now left).
        now apply filter_In in Hin. }
      destruct Hb1 as [<-|Hb1]; [now rewrite tied_refl in Htied|].
      rewrite List.Forall_forall in Ha, Hb.
      assert (Js.tied cmp a b = true)
        by (apply tied_precedes; split; [now apply Ha | now apply Hb]).
      congruence. }
    subst b. f_equal. apply IH; [exact Hs2|].
    intros x. specialize (Heq x). simpl in Heq.
    destruct (Js.tied cmp x a); [now injection Heq | exact Heq].
Qed.

(** So [Js.sort] returns the one list a stable sort can return. *)
Lemma sort_unique (l l' : list A) :
  StronglySorted (Js.precedes cmp) l' ->
  (forall x, List.filter (Js.tied cmp x) l' = List.filter (Js.tied cmp x) l) ->
  l' = Js.sort cmp l.
Proof using cmp_flip cmp_trans.
  intros Hs Hstable. apply sorted_stable_unique; [exact Hs | apply sort_sorted|].
  intros x. rewrite Hstable. symmetry. apply sort_stable.
  intros a b Ha Hb. apply tied_precedes in Ha as [_ Hax].
  apply tied_precedes in Hb as [Hxb _]. now apply cmp_trans with x.
Qed.

End SortFacts.

End JsFacts.

(* ===================================================================== *)
(** * Facts about runs of [start] and [stop]                              *)
(* ===================================================================== *)

Module EffFacts.
Section Facts.
Context {St Ev : Type}.

Lemma bind_ext {A B} (m : Eff St Ev A) (k k' : A -> Eff St Ev B) (s : St) :
  (forall a s', k a s' = k' a s') -> Eff.andThen m k s = Eff.andThen m k' s.
Proof.
  intros Hk. unfold Eff.andThen. destruct (result (m s)); [reflexivity|].
  now rewrite Hk.
Qed.

Lemma bind_ext_l {A B} (m m' : Eff St Ev A) (k k' : A -> Eff St Ev B) (s : St) :
  (forall s', m s' = m' s') -> (forall a s', k a s' = k' a s') ->
  Eff.andThen m k s = Eff.andThen m' k' s.
Proof.
  intros Hm Hk. unfold Eff.andThen. rewrite Hm.
  destruct (result (m' s)); [reflexivity|]. now rewrite Hk.
Qed.

Lemma bind_assoc {A B C} (m : Eff St Ev A) (k : A -> Eff St Ev B)
    (h : B -> Eff St Ev C) (s : St) :
  Eff.andThen (Eff.andThen m k) h s = Eff.andThen m (fun a => Eff.andThen (k a) h) s.
Proof.
  unfold Eff.andThen. destruct (result (m s)) as [e|a]; simpl; [reflexivity|].
  destruct (result (k a (final (m s)))) as [e|b]; simpl; [reflexivity|].
  now rewrite app_assoc.
Qed.

Lemma bind_ret_l {A} (m : Eff St Ev A) (s : St) :
  Eff.andThen (Eff.ret tt) (fun _ => m) s = m s.
Proof. unfold Eff.andThen, Eff.ret; simpl. now destruct (m s). Qed.

Lemma bind_inr {A B} (m : Eff St Ev A) (k : A -> Eff St Ev B) (s : St)
    (a : A) (s' : St) (t : list Ev) :
  m s = mkOutcome (inr a) s' t ->
  Eff.andThen m k s
  = mkOutcome (result (k a s')) (final (k a s')) (t ++ trace (k a s')).
Proof. intros Hm. unfold Eff.andThen. now rewrite Hm. Qed.

Lemma bind_inl {A B} (m : Eff St Ev A) (k : A -> Eff St Ev B) (s : St)
    (e : Error) (s' : St) (t : list Ev) :
  m s = mkOutcome (inl e) s' t ->
  Eff.andThen m k s = mkOutcome (inl e) s' t.
Proof. intros Hm. unfold Eff.andThen. now rewrite Hm. Qed.

Lemma bind_result_inr {A B} (m : Eff St Ev A) (k : A -> Eff St Ev B) (s : St)
    (a : A) :
  result (m s) = inr a ->
  result (Eff.andThen m k s) = result (k a (final (m s)))
  /\ final (Eff.andThen m k s) = final (k a (final (m s))).
Proof. intros Hm. unfold Eff.andThen. now rewrite Hm. Qed.

Lemma bind_result_inl {A B} (m : Eff St Ev A) (k : A -> Eff St Ev B) (s : St)
    (e : Error) :
  result (m s) = inl e ->
  result (Eff.andThen m k s) = inl e /\ final (Eff.andThen m k s) = final (m s).
Proof. intros Hm. unfold Eff.andThen. now rewrite Hm. Qed.

Lemma for_of_map {A B} (f : A -> B) (body : B -> Eff St Ev unit)
    (xs : list A) (s : St) :
  Eff.for_of (map f xs) body s = Eff.for_of xs (fun x => body (f x)) s.
Proof.
  revert s. induction xs as [|x xs IH]; intros s; simpl; [reflexivity|].
  apply bind_ext. intros _ s'. apply IH.
Qed.

Lemma for_of_app {A} (body : A -> Eff St Ev unit) (xs ys : list A) (s : St) :
  Eff.for_of (xs ++ ys) body s
  = Eff.andThen (Eff.for_of xs body) (fun _ => Eff.for_of ys body) s.
Proof.
  revert s. induction xs as [|x xs IH]; intros s; simpl.
  - now rewrite bind_ret_l.
  - rewrite bind_assoc. apply bind_ext. intros _ s'. apply IH.
Qed.

End Facts.
End EffFacts.

Module LifecycleFacts.
Import Application Lifecycle.
Section Facts.
Context {St V : Type} `{Runtime St V}.

(** The four ways a turn of the loop can go. *)
Lemma turn_cases (m : Method) (b : Binding) (s : St) :
  match get (key b) s with
  | (inl e, s1) =>
      turn m b s = mkOutcome (inl e) s1 (failing m (key b) e None)
  | (inr v, s1) =>
      if isLifeCycleObserver v then
        match observer_method m v s1 with
        | (inl e, s2) =>
            turn m b s = mkOutcome (inl e) s2 (failing m (key b) e (Some v))
        | (inr _, s2) =>
            turn m b s = mkOutcome (inr tt) s2 (block m (key b, v))
        end
      else turn m b s = mkOutcome (inr tt) s1 (block m (key b, v))
  end.
Proof.
  destruct m; unfold turn, start_binding, stop_binding, Eff.andThen, Eff.call,
    block, failing, observer_method, debug, Eff.emit, Eff.ret; simpl;
  destruct (get (key b) s) as [[e|v] s1]; simpl; try reflexivity;
  destruct (isLifeCycleObserver v); simpl; try reflexivity.
  - destruct (observer_start v s1) as [[e|[]] s2]; reflexivity.
  - destruct (observer_stop v s1) as [[e|[]] s2]; reflexivity.
Qed.

(** Every run of a loop consists of complete turns, one per binding in
    order, followed by nothing when it succeeds and by one failing turn
    when it fails. *)
Lemma run_shape (m : Method) (bs : list Binding) (s : St) :
  exists vs : list V,
    Forall2 (fun b v => resolvable (key b) v) (firstn (length vs) bs) vs /\
    match result (Eff.for_of bs (turn m) s) with
    | inr _ =>
        length vs = length bs /\
        trace (Eff.for_of bs (turn m) s)
        = flat_map (block m) (combine (map key bs) vs)
    | inl e =>
        exists b at_call,
          nth_error bs (length vs) = Some b /\
          (forall v, at_call = Some v ->
                     resolvable (key b) v /\ isLifeCycleObserver v = true) /\
          trace (Eff.for_of bs (turn m) s)
          = flat_map (block m) (combine (map key bs) vs)
            ++ failing m (key b) e at_call
    end.
Proof.
  revert s. induction bs as [|b bs IH]; intros s.
  - exists []. simpl. repeat split; constructor.
  - simpl. unfold Eff.andThen.
    pose proof (turn_cases m b s) as Hb.
    destruct (get (key b) s) as [[e|v] s1] eqn:Hget.
    + rewrite Hb; simpl. exists []; simpl. split; [constructor|].
      exists b, None. split; [reflexivity|]. split; [discriminate|reflexivity].
    + assert (Hres : resolvable (key b) v) by (now exists s, s1).
      destruct (isLifeCycleObserver v) eqn:Hcap.
      * destruct (observer_method m v s1) as [[e|[]] s2] eqn:Hcall;
          rewrite Hb; simpl.
        -- exists []; simpl. split; [constructor|].
           exists b, (Some v). split; [reflexivity|]. split; [|reflexivity].
           intros v' [= <-]. now split.
        -- destruct (IH s2) as [vs [Hvs Hrun]]. exists (v :: vs). simpl.
           split; [now constructor|].
           destruct (result (Eff.for_of bs (turn m) s2)) as [e|[]].
           ++ destruct Hrun as [b' [ac [Hnth [Hac Ht]]]].
              exists b', ac. split; [exact Hnth|]. split; [exact Hac|].
              rewrite Ht. simpl. now rewrite app_assoc.
           ++ destruct Hrun as [Hlen Ht]. split; [now rewrite Hlen|].
              now rewrite Ht.
      * rewrite Hb; simpl.
        destruct (IH s1) as [vs [Hvs Hrun]]. exists (v :: vs). simpl.
        split; [now constructor|].
        destruct (result (Eff.for_of bs (turn m) s1)) as [e|[]].
        -- destruct Hrun as [b' [ac [Hnth [Hac Ht]]]].
           exists b', ac. split; [exact Hnth|]. split; [exact Hac|].
           rewrite Ht. simpl. now rewrite app_assoc.
        -- destruct Hrun as [Hlen Ht]. split; [now rewrite Hlen|].
           now rewrite Ht.
Qed.

(** ** Projections of a trace *)

Lemma got_app (t1 t2 : list (Event V)) : got (t1 ++ t2) = got t1 ++ got t2.
Proof. apply flat_map_app. Qed.

Lemma resolved_app (t1 t2 : list (Event V)) :
  resolved (t1 ++ t2) = resolved t1 ++ resolved t2.
Proof. apply flat_map_app. Qed.

Lemma invoked_app (m : Method) (t1 t2 : list (Event V)) :
  invoked m (t1 ++ t2) = invoked m t1 ++ invoked m t2.
Proof. apply flat_map_app. Qed.

Lemma fulfilled_app (m : Method) (t1 t2 : list (Event V)) :
  fulfilled m (t1 ++ t2) = fulfilled m t1 ++ fulfilled m t2.
Proof. apply flat_map_app. Qed.

Lemma capable_app (t1 t2 : list (Event V)) :
  capable (t1 ++ t2) = capable t1 ++ capable t2.
Proof.
  unfold capable. now rewrite resolved_app, List.filter_app, map_app.
Qed.

Lemma Method_eqb_refl (m : Method) : Method_eqb m m = true.
Proof. now destruct m. Qed.

Lemma Method_eqb_other (m : Method) : Method_eqb m (other m) = false.
Proof. now destruct m. Qed.

Lemma got_blocks (m : Method) (kvs : list (string * V)) :
  got (flat_map (block m) kvs) = map fst kvs.
Proof.
  induction kvs as [|[k v] kvs IH]; simpl; [reflexivity|].
  rewrite got_app, IH. now destruct (isLifeCycleObserver v).
Qed.

Lemma resolved_blocks (m : Method) (kvs : list (string * V)) :
  resolved (flat_map (block m) kvs) = kvs.
Proof.
  induction kvs as [|[k v] kvs IH]; simpl; [reflexivity|].
  rewrite resolved_app, IH. now destruct (isLifeCycleObserver v).
Qed.

Lemma invoked_blocks (m m' : Method) (kvs : list (string * V)) :
  invoked m' (flat_map (block m) kvs)
  = if Method_eqb m m'
    then map fst (List.filter (fun kv => isLifeCycleObserver (snd kv)) kvs)
    else [].
Proof.
  induction kvs as [|[k v] kvs IH]; simpl; [now destruct (Method_eqb m m')|].
  rewrite invoked_app, IH.
  destruct (isLifeCycleObserver v); simpl; now destruct (Method_eqb m m').
Qed.

Lemma fulfilled_blocks (m m' : Method) (kvs : list (string * V)) :
  fulfilled m' (flat_map (block m) kvs) = invoked m' (flat_map (block m) kvs).
Proof.
  induction kvs as [|[k v] kvs IH]; simpl; [reflexivity|].
  rewrite fulfilled_app, invoked_app, IH.
  now destruct (isLifeCycleObserver v).
Qed.

Lemma capable_blocks (m : Method) (kvs : list (string * V)) :
  capable (flat_map (block m) kvs)
  = map fst (List.filter (fun kv => isLifeCycleObserver (snd kv)) kvs).
Proof. unfold capable. now rewrite resolved_blocks. Qed.

Lemma got_failing m k e (ac : option V) : got (failing m k e ac) = [k].
Proof. now destruct ac. Qed.

Lemma invoked_failing m m' k e (ac : option V) :
  (forall v, ac = Some v -> isLifeCycleObserver v = true) ->
  invoked m' (failing m k e ac)
  = if Method_eqb m m' then capable (failing m k e ac) else [].
Proof.
  intros Hac. destruct ac as [v|]; unfold capable; simpl.
  - rewrite (Hac v eq_refl). simpl. now destruct (Method_eqb m m').
  - now destruct (Method_eqb m m').
Qed.

Lemma fulfilled_failing m m' k e (ac : option V) :
  fulfilled m' (failing m k e ac) = [].
Proof. destruct ac; simpl; [|reflexivity]. now destruct (Method_eqb m m'). Qed.

Lemma map_fst_combine {A B} (ks : list A) (vs : list B) :
  map fst (combine ks vs) = firstn (length vs) ks.
Proof.
  revert vs. induction ks as [|k ks IH]; intros [|v vs]; simpl; try reflexivity.
  now rewrite IH.
Qed.

(** ** [start] and [stop] as the loop between two [debug] lines *)

Lemma operation_unfold (m : Method) (reg : Registry) (s : St) :
  let o := Eff.for_of (order m reg) (turn m) s in
  operation m reg s
  = mkOutcome (result o) (final o)
      (Debug (opening m) [] :: trace o
       ++ match result o with
          | inr _ => [Debug (closing m) []]
          | inl _ => []
          end).
Proof.
  destruct m; simpl; unfold start, stop, Eff.andThen, debug, Eff.emit; simpl.
  - change (Eff.for_of (_findLifeCycleObserverBindings reg) start_binding s)
      with (Eff.for_of (start_order reg) (turn MStart) s).
    destruct (Eff.for_of (start_order reg) (turn MStart) s) as [[e|[]] s' t];
      simpl; [now rewrite app_nil_r | reflexivity].
  - change (Eff.for_of (Js.reverse (_findLifeCycleObserverBindings reg))
              stop_binding s)
      with (Eff.for_of (stop_order reg) (turn MStop) s).
    destruct (Eff.for_of (stop_order reg) (turn MStop) s) as [[e|[]] s' t];
      simpl; [now rewrite app_nil_r | reflexivity].
Qed.

Lemma operation_result (m : Method) (reg : Registry) (s : St) :
  result (operation m reg s) = result (Eff.for_of (order m reg) (turn m) s).
Proof. now rewrite operation_unfold. Qed.

Lemma operation_final (m : Method) (reg : Registry) (s : St) :
  final (operation m reg s) = final (Eff.for_of (order m reg) (turn m) s).
Proof. now rewrite operation_unfold. Qed.

Lemma operation_got (m : Method) (reg : Registry) (s : St) :
  got (trace (operation m reg s))
  = got (trace (Eff.for_of (order m reg) (turn m) s)).
Proof.
  rewrite operation_unfold. simpl. rewrite got_app.
  destruct (result _); simpl; now rewrite app_nil_r.
Qed.

Lemma operation_resolved (m : Method) (reg : Registry) (s : St) :
  resolved (trace (operation m reg s))
  = resolved (trace (Eff.for_of (order m reg) (turn m) s)).
Proof.
  rewrite operation_unfold. simpl. rewrite resolved_app.
  destruct (result _); simpl; now rewrite app_nil_r.
Qed.

Lemma operation_invoked (m m' : Method) (reg : Registry) (s : St) :
  invoked m' (trace (operation m reg s))
  = invoked m' (trace (Eff.for_of (order m reg) (turn m) s)).
Proof.
  rewrite operation_unfold. simpl. rewrite invoked_app.
  destruct (result _); simpl; now rewrite app_nil_r.
Qed.

Lemma operation_fulfilled (m m' : Method) (reg : Registry) (s : St) :
  fulfilled m' (trace (operation m reg s))
  = fulfilled m' (trace (Eff.for_of (order m reg) (turn m) s)).
Proof.
  rewrite operation_unfold. simpl. rewrite fulfilled_app.
  destruct (result _); simpl; now rewrite app_nil_r.
Qed.

Lemma operation_capable (m : Method) (reg : Registry) (s : St) :
  capable (trace (operation m reg s))
  = capable (trace (Eff.for_of (order m reg) (turn m) s)).
Proof. unfold capable. now rewrite operation_resolved. Qed.

(** ** What every run of a loop does *)

Lemma firstn_S_nth_error {A} (l : list A) (n : nat) (x : A) :
  nth_error l n = Some x -> firstn (S n) l = firstn n l ++ [x].
Proof.
  revert n. induction l as [|y l IH]; intros [|n] Hn; simpl in *;
    try discriminate.
  - now injection Hn as ->.
  - f_equal. now apply IH.
Qed.

Lemma firstn_sublist {A} (l : list A) (n : nat) : sublist (firstn n l) l.
Proof.
  revert n. induction l as [|x l IH]; intros [|n]; simpl;
    try constructor; try apply IH. apply sublist_nil_l.
Qed.

Lemma run_success (m : Method) (bs : list Binding) (s : St) :
  result (Eff.for_of bs (turn m) s) = inr tt ->
  exists vs : list V,
    Forall2 (fun b v => resolvable (key b) v) bs vs /\
    trace (Eff.for_of bs (turn m) s)
    = flat_map (block m) (combine (map key bs) vs).
Proof.
  intros Hok. destruct (run_shape m bs s) as [vs [Hvs Hrun]].
  rewrite Hok in Hrun. destruct Hrun as [Hlen Ht].
  exists vs. split; [|exact Ht].
  now rewrite Hlen, firstn_all in Hvs.
Qed.

(** The keys resolved are those of the bindings, in order, up to the
    turn that failed, and all of them when none did. *)
Lemma run_got (m : Method) (bs : list Binding) (s : St) :
  exists n,
    got (trace (Eff.for_of bs (turn m) s)) = map key (firstn n bs) /\
    (result (Eff.for_of bs (turn m) s) = inr tt -> n = length bs).
Proof.
  destruct (run_shape m bs s) as [vs [Hvs Hrun]].
  destruct (result (Eff.for_of bs (turn m) s)) as [e|[]].
  - destruct Hrun as [b [ac [Hnth [_ Ht]]]].
    exists (S (length vs)). split; [|discriminate].
    rewrite Ht, got_app, got_blocks, got_failing, map_fst_combine.
    rewrite (firstn_S_nth_error _ _ _ Hnth), map_app. simpl.
    now rewrite firstn_map.
  - destruct Hrun as [Hlen Ht]. exists (length bs). split; [|reflexivity].
    rewrite Ht, got_blocks, map_fst_combine, Hlen.
    now rewrite firstn_map.
Qed.

(** A method is called on exactly the resolved values that pass
    [isLifeCycleObserver], and the other method is never called. *)
Lemma run_invoked (m m' : Method) (bs : list Binding) (s : St) :
  invoked m' (trace (Eff.for_of bs (turn m) s))
  = if Method_eqb m m'
    then capable (trace (Eff.for_of bs (turn m) s))
    else [].
Proof.
  destruct (run_shape m bs s) as [vs [Hvs Hrun]].
  destruct (result (Eff.for_of bs (turn m) s)) as [e|[]].
  - destruct Hrun as [b [ac [Hnth [Hac Ht]]]].
    rewrite Ht, invoked_app, capable_app, invoked_blocks, capable_blocks.
    rewrite invoked_failing by (intros v Hv; apply (Hac v Hv)).
    now destruct (Method_eqb m m').
  - destruct Hrun as [Hlen Ht].
    now rewrite Ht, invoked_blocks, capable_blocks.
Qed.

(** In a run that succeeds every call was fulfilled. *)
Lemma run_fulfilled (m m' : Method) (bs : list Binding) (s : St) :
  result (Eff.for_of bs (turn m) s) = inr tt ->
  fulfilled m' (trace (Eff.for_of bs (turn m) s))
  = invoked m' (trace (Eff.for_of bs (turn m) s)).
Proof.
  intros Hok. destruct (run_success m bs s Hok) as [vs [_ Ht]].
  rewrite Ht. apply fulfilled_blocks.
Qed.

Lemma capable_sublist (P : string * V -> bool) (bs : list Binding)
    (vs : list V) :
  exists l, sublist l (firstn (length vs) bs) /\
            map fst (List.filter P (combine (map key bs) vs)) = map key l.
Proof.
  revert vs. induction bs as [|b bs IH]; intros [|v vs]; simpl;
    try (exists []; split; [constructor | reflexivity]).
  destruct (IH vs) as [l [Hl Heq]].
  destruct (P (key b, v)); simpl.
  - exists (b :: l). split; [now constructor | now rewrite Heq].
  - exists l. split; [now constructor | exact Heq].
Qed.

(** The observers called are a subsequence of the bindings iterated. *)
Lemma run_invoked_sublist (m : Method) (bs : list Binding) (s : St) :
  exists l, sublist l bs /\
            invoked m (trace (Eff.for_of bs (turn m) s)) = map key l.
Proof.
  destruct (run_shape m bs s) as [vs [Hvs Hrun]]. clear Hvs.
  destruct (capable_sublist (fun kv => isLifeCycleObserver (snd kv)) bs vs)
    as [l [Hl Heq]].
  destruct (result (Eff.for_of bs (turn m) s)) as [e|[]].
  - destruct Hrun as [b [ac [Hnth [Hac Ht]]]].
    rewrite Ht, invoked_app, invoked_blocks, Method_eqb_refl, Heq.
    destruct ac as [v|]; simpl; rewrite ?Method_eqb_refl.
    + exists (l ++ [b]). split; [|now rewrite map_app].
      transitivity (firstn (S (length vs)) bs); [|apply firstn_sublist].
      rewrite (firstn_S_nth_error _ _ _ Hnth).
      now apply sublist_app.
    + exists l. split; [|now rewrite app_nil_r].
      transitivity (firstn (length vs) bs); [exact Hl | apply firstn_sublist].
  - destruct Hrun as [Hlen Ht].
    rewrite Ht, invoked_blocks, Method_eqb_refl, Heq.
    exists l. split; [|reflexivity].
    transitivity (firstn (length vs) bs); [exact Hl | apply firstn_sublist].
Qed.

(** When the capability of what a key resolves to is settled by the key,
    a run that succeeds calls exactly the capable keys, in order. *)
Lemma run_invoked_filter (c : string -> bool) (m : Method)
    (bs : list Binding) (s : St) :
  (forall k v, resolvable k v -> isLifeCycleObserver v = c k) ->
  result (Eff.for_of bs (turn m) s) = inr tt ->
  invoked m (trace (Eff.for_of bs (turn m) s)) = List.filter c (map key bs).
Proof.
  intros Hc Hok. destruct (run_success m bs s Hok) as [vs [Hvs Ht]].
  rewrite Ht, invoked_blocks, Method_eqb_refl. clear Ht Hok.
  induction Hvs as [|b v bs vs Hbv Hvs IH]; simpl; [reflexivity|].
  rewrite (Hc _ _ Hbv). destruct (c (key b)); simpl; now rewrite IH.
Qed.

(** A loop that fails in the turn of [b], after the turns before it. *)
Lemma run_fails_at (m : Method) (pre post : list Binding) (b : Binding)
    (s : St) (v : V) (s2 s3 : St) (e : Error) :
  let o1 := Eff.for_of pre (turn m) s in
  result o1 = inr tt ->
  get (key b) (final o1) = (inr v, s2) ->
  isLifeCycleObserver v = true ->
  observer_method m v s2 = (inl e, s3) ->
  Eff.for_of (pre ++ b :: post) (turn m) s
  = mkOutcome (inl e) s3 (trace o1 ++ failing m (key b) e (Some v)).
Proof.
  intros o1 Hok Hget Hcap Hcall.
  rewrite EffFacts.for_of_app. unfold Eff.andThen at 1. fold o1. rewrite Hok.
  simpl. unfold Eff.andThen.
  pose proof (turn_cases m b (final o1)) as Hb.
  rewrite Hget, Hcap, Hcall in Hb. now rewrite Hb.
Qed.

End Facts.
End LifecycleFacts.

(* ===================================================================== *)
(** * Discovery and ordering                                              *)
(* ===================================================================== *)

Module ApplicationFacts.
Import Application Lifecycle.

Lemma isLifeCycleObserverBinding_spec (b : Binding) :
  isLifeCycleObserverBinding b = true <-> selectable b.
Proof.
  unfold isLifeCycleObserverBinding, selectable, type_is, scope_is.
  rewrite andb_true_iff, !orb_true_iff, JsFacts.truthy_Some,
    JsFacts.not_nullish_Some.
  assert (Hty : match type b with
                | Some ty' => BindingType.type_eqb ty' BindingType.CONSTANT
                | None => false
                end = true <-> type b = Some BindingType.CONSTANT).
  { destruct (type b) as [[]|]; simpl; split; congruence. }
  assert (Hsc : BindingScope.scope_eqb (scope b) BindingScope.SINGLETON = true
                <-> scope b = BindingScope.SINGLETON).
  { destruct (scope b); simpl; split; congruence. }
  rewrite Hty, Hsc. reflexivity.
Qed.

Lemma compareBindings_precedes (b1 b2 : Binding) :
  Js.precedes compareBindings b1 b2 <-> tag_le b1 b2.
Proof.
  unfold Js.precedes, compareBindings, tag_le, Js.str_le.
  destruct (Js.str_gt (serverTag b1) (serverTag b2)); simpl.
  - split; [lia | discriminate].
  - split; [reflexivity|]. intros _.
    destruct (Js.str_lt (serverTag b1) (serverTag b2)); lia.
Qed.

Lemma tag_le_refl (b : Binding) : tag_le b b.
Proof. apply JsFacts.str_le_refl. Qed.

Lemma tag_le_trans (b1 b2 b3 : Binding) :
  tag_le b1 b2 -> tag_le b2 b3 -> tag_le b1 b3.
Proof. apply JsFacts.str_le_trans. Qed.

Lemma tag_le_total (b1 b2 : Binding) : tag_le b1 b2 \/ tag_le b2 b1.
Proof. apply JsFacts.str_le_total. Qed.

Lemma compareBindings_flip (x y : Binding) :
  (0 < compareBindings x y)%Z -> (compareBindings y x <= 0)%Z.
Proof.
  intros Hxy. apply compareBindings_precedes.
  destruct (tag_le_total x y) as [Hle|Hle]; [|exact Hle].
  apply compareBindings_precedes in Hle. unfold Js.precedes in Hle. lia.
Qed.

Lemma compareBindings_trans (x y z : Binding) :
  Js.precedes compareBindings x y -> Js.precedes compareBindings y z ->
  Js.precedes compareBindings x z.
Proof.
  rewrite !compareBindings_precedes. apply tag_le_trans.
Qed.

Lemma compareBindings_same_tag (t : string) (a b : Binding) :
  has_server_tag t a = true -> has_server_tag t b = true ->
  (compareBindings a b <= 0)%Z.
Proof.
  unfold has_server_tag. rewrite !String.eqb_eq. intros Ha Hb.
  apply compareBindings_precedes. unfold tag_le. rewrite Ha, Hb.
  apply JsFacts.str_le_refl.
Qed.

Lemma start_order_perm (reg : Registry) :
  Permutation (start_order reg) (find isLifeCycleObserverBinding reg).
Proof. apply JsFacts.sort_perm. Qed.

Lemma start_order_sorted (reg : Registry) :
  StronglySorted tag_le (start_order reg).
Proof.
  assert (Hs : StronglySorted (Js.precedes compareBindings) (start_order reg)).
  { apply JsFacts.sort_sorted;
      [apply compareBindings_flip | apply compareBindings_trans]. }
  induction Hs as [|b l Hl IH Hb]; constructor; [exact IH|].
  eapply Forall_impl; [exact Hb|]. intros c. apply compareBindings_precedes.
Qed.

Lemma start_order_stable (reg : Registry) (t : string) :
  List.filter (has_server_tag t) (start_order reg)
  = List.filter (has_server_tag t) (find isLifeCycleObserverBinding reg).
Proof. apply JsFacts.sort_stable, compareBindings_same_tag. Qed.

Lemma order_In (m : Method) (reg : Registry) (b : Binding) :
  In b (order m reg) <-> In b reg /\ selectable b.
Proof.
  assert (Hstart : In b (start_order reg) <-> In b reg /\ selectable b).
  { unfold start_order, _findLifeCycleObserverBindings,
      _sortLifeCycleObserverBindings, find.
    now rewrite JsFacts.sort_In, filter_In, isLifeCycleObserverBinding_spec. }
  destruct m; simpl; [exact Hstart|].
  unfold stop_order, Js.reverse. now rewrite <- in_rev.
Qed.

(** A list in ascending order of the server tags has the bindings without
    a server tag in front. *)
Lemma sorted_untagged_first (l : list Binding) :
  StronglySorted tag_le l ->
  l = List.filter (has_server_tag "") l
      ++ List.filter (fun b => negb (has_server_tag "" b)) l.
Proof.
  induction 1 as [|b l Hl IH Hb]; simpl; [reflexivity|].
  destruct (has_server_tag "" b) eqn:Hemp; simpl; [now rewrite <- IH|].
  assert (Hnone : List.filter (has_server_tag "") l = []).
  { clear IH Hl. induction Hb as [|c l Hbc Hb' IHb]; simpl; [reflexivity|].
    destruct (has_server_tag "" c) eqn:Hc; [|exact IHb].
    unfold has_server_tag in Hemp, Hc. apply String.eqb_eq in Hc.
    unfold tag_le in Hbc. rewrite Hc in Hbc.
    apply JsFacts.str_le_empty_inv in Hbc.
    rewrite Hbc in Hemp. discriminate. }
  rewrite Hnone in IH |- *. simpl in *. now rewrite <- IH.
Qed.

Lemma sorted_sublist (l k : list Binding) :
  sublist l k -> StronglySorted tag_le k -> StronglySorted tag_le l.
Proof.
  induction 1 as [|x l k Hlk IH|x l k Hlk IH]; intros Hk.
  - constructor.
  - inversion Hk as [|? ? Hk' Hx]; subst. constructor; [now apply IH|].
    apply List.Forall_forall. intros y Hy.
    apply (proj1 (List.Forall_forall _ _) Hx).
    apply list_elem_of_In. eapply elem_of_sublist; [|exact Hlk].
    now apply list_elem_of_In.
  - inversion Hk; subst. now apply IH.
Qed.

Lemma serverTag_default (b : Binding) :
  serverTag b = default "" (tagMap b !! CoreBindings.SERVER_TAG).
Proof.
  unfold serverTag, Js.or_else.
  destruct (tagMap b !! CoreBindings.SERVER_TAG) as [[|a t]|]; reflexivity.
Qed.

Lemma has_server_tag_decide (t : string) (b : Binding) :
  has_server_tag t b
  = bool_decide (default "" (tagMap b !! CoreBindings.SERVER_TAG) = t).
Proof.
  unfold has_server_tag. rewrite serverTag_default.
  destruct (String.eqb_spec
              (default "" (tagMap b !! CoreBindings.SERVER_TAG)) t) as [He|He].
  - now rewrite bool_decide_eq_true_2.
  - now rewrite bool_decide_eq_false_2.
Qed.

Lemma tag_le_lex (b1 b2 : Binding) :
  tag_le b1 b2
  <-> Js.lex_le
        (Js.code_units (default "" (tagMap b1 !! CoreBindings.SERVER_TAG)))
        (Js.code_units (default "" (tagMap b2 !! CoreBindings.SERVER_TAG))).
Proof.
  unfold tag_le. now rewrite JsFacts.str_le_lex, !serverTag_default.
Qed.

Lemma sorted_lex (l : list Binding) :
  StronglySorted tag_le l ->
  StronglySorted
    (fun b1 b2 =>
       Js.lex_le
         (Js.code_units (default "" (tagMap b1 !! CoreBindings.SERVER_TAG)))
         (Js.code_units (default "" (tagMap b2 !! CoreBindings.SERVER_TAG))))
    l.
Proof.
  induction 1 as [|b l Hl IH Hb]; constructor; [exact IH|].
  eapply Forall_impl; [exact Hb|]. intros c. apply tag_le_lex.
Qed.

Lemma key_determines (reg : Registry) (b1 b2 : Binding) :
  List.NoDup (map key reg) -> In b1 reg -> In b2 reg -> key b1 = key b2 ->
  b1 = b2.
Proof.
  induction reg as [|b reg IH]; simpl; [tauto|].
  intros Hnd [H1|H1] [H2|H2] Hk; inversion Hnd as [|? ? Hnotin Hnd']; subst.
  - reflexivity.
  - exfalso. apply Hnotin. rewrite Hk. now apply in_map.
  - exfalso. apply Hnotin. rewrite <- Hk. now apply in_map.
  - now apply IH.
Qed.

End ApplicationFacts.

(* ===================================================================== *)
(** * The life cycle coordinator                                          *)
(* ===================================================================== *)

Import Application Lifecycle.

(** C1 (as the code has it).  [start()] and [stop()] iterate over
    registered bindings that hold a constant or are singletons and that
    carry a "lifecycle-observer" tag or a "server" tag; every registered
    constant or singleton binding carrying a "lifecycle-observer" tag, or
    a "server" tag with a non-empty value, is among them; the sequence is
    a rearrangement of what [find] returns.  In every run only keys of
    constant or singleton bindings so tagged are resolved or have a method
    called, and, the keys of the registry being distinct, the key of a
    binding that neither holds a constant nor is a singleton is never
    resolved and no method is called on it, whatever its tags. *)
Theorem lifecycle_bindings_selected (reg : Registry) :
  let tagged b :=
    tagged_with CoreBindings.LIFE_CYCLE_OBSERVER_TAG b
    \/ tagged_with CoreBindings.SERVER_TAG b in
  (forall m b, In b (order m reg) ->
     In b reg /\ constant_or_singleton b /\ tagged b)
  /\ (forall m b, In b reg -> constant_or_singleton b ->
        tagged_with CoreBindings.LIFE_CYCLE_OBSERVER_TAG b
        \/ (exists v, tagMap b !! CoreBindings.SERVER_TAG = Some v /\ v <> "") ->
        In b (order m reg))
  /\ (forall m, Permutation (order m reg) (find isLifeCycleObserverBinding reg))
  /\ (forall St V (R : Runtime St V) m s k,
        In k (got (trace (operation m reg s)))
        \/ In k (invoked m (trace (operation m reg s))) ->
        exists b, In b reg /\ constant_or_singleton b /\ tagged b
                  /\ key b = k)
  /\ (List.NoDup (map key reg) ->
      forall b, In b reg -> ~ constant_or_singleton b ->
      forall St V (R : Runtime St V) m s,
        ~ In (key b) (got (trace (operation m reg s)))
        /\ ~ In (key b) (invoked m (trace (operation m reg s)))).
Proof.
  intros tagged.
  assert (Hsel : forall b, selectable b -> constant_or_singleton b /\ tagged b).
  { intros b [Hcs [Hl|[v [Hv _]]]]; (split; [exact Hcs|]).
    - now left.
    - right. now exists v. }
  assert (Hrun : forall St V (R : Runtime St V) m s k,
            In k (got (trace (operation m reg s)))
            \/ In k (invoked m (trace (operation m reg s))) ->
            exists b, In b (order m reg) /\ key b = k).
  { intros St V R m s k [Hk|Hk].
    - rewrite LifecycleFacts.operation_got in Hk.
      destruct (LifecycleFacts.run_got m (order m reg) s) as [n [Hn _]].
      rewrite Hn in Hk. apply in_map_iff in Hk as [b [Hb Hin]].
      exists b. split; [|exact Hb].
      apply list_elem_of_In.
      eapply elem_of_sublist; [|apply LifecycleFacts.firstn_sublist].
      apply list_elem_of_In, Hin.
    - rewrite LifecycleFacts.operation_invoked in Hk.
      destruct (LifecycleFacts.run_invoked_sublist m (order m reg) s)
        as [l [Hl Heq]].
      rewrite Heq in Hk. apply in_map_iff in Hk as [b [Hb Hin]].
      exists b. split; [|exact Hb].
      apply list_elem_of_In. eapply elem_of_sublist; [|exact Hl].
      apply list_elem_of_In, Hin. }
  split; [|split; [|split; [|split]]].
  - intros m b Hin. apply ApplicationFacts.order_In in Hin as [Hreg Hb].
    split; [exact Hreg|]. now apply Hsel.
  - intros m b Hreg Hcs Htag. apply ApplicationFacts.order_In.
    split; [exact Hreg|]. split; [exact Hcs|exact Htag].
  - intros [|]; simpl; [apply ApplicationFacts.start_order_perm|].
    unfold stop_order, Js.reverse. rewrite <- Permutation_rev.
    apply ApplicationFacts.start_order_perm.
  - intros St V R m s k Hk.
    destruct (Hrun St V R m s k Hk) as [b [Hin Hb]].
    apply ApplicationFacts.order_In in Hin as [Hreg Hs].
    destruct (Hsel b Hs) as [Hcs Htag]. now exists b.
  - intros Hnodup b Hreg Hno St V R m s.
    assert (Hnot : ~ (In (key b) (got (trace (operation m reg s)))
                      \/ In (key b) (invoked m (trace (operation m reg s))))).
    { intros Hk. destruct (Hrun St V R m s (key b) Hk) as [b' [Hin Hb]].
      apply ApplicationFacts.order_In in Hin as [Hreg' [Hcs _]].
      apply Hno.
      now rewrite (ApplicationFacts.key_determines reg b' b Hnodup Hreg' Hreg Hb)
        in Hcs. }
    tauto.
Qed.

Lemma lifecycle_bindings_selected_witness :
  ~ In "servers.D"
      (got (trace (@start _ _ (Demo.runtime Demo.all_healthy) Demo.registry 0)))
  /\ ~ In "servers.D"
        (invoked MStart
           (trace (@start _ _ (Demo.runtime Demo.all_healthy) Demo.registry 0))).
Proof.
  refine (proj2 (proj2 (proj2 (proj2
            (lifecycle_bindings_selected Demo.registry)))) _ Demo.D _ _
            nat Demo.Observer (Demo.runtime Demo.all_healthy) MStart 0).
  - vm_compute. repeat constructor; simpl; intuition discriminate.
  - vm_compute. tauto.
  - vm_compute. intros [H|H]; discriminate H.
Defined.

(** C1 as stated fails.  A constant bound in the transient scope and
    tagged as a life cycle observer does not satisfy the selection as the
    specification words it; it is selected all the same, and [start()] and
    [stop()] resolve it and call its [start] and its [stop]. *)
Lemma lifecycle_selection_counterexample :
  scope Demo.constant = BindingScope.TRANSIENT
  /\ tagged_with CoreBindings.LIFE_CYCLE_OBSERVER_TAG Demo.constant
  /\ selection_as_specified Demo.constant = false
  /\ start_order [Demo.constant] = [Demo.constant]
  /\ stop_order [Demo.constant] = [Demo.constant]
  /\ invoked MStart
       (trace (@start _ _ (Demo.runtime Demo.all_healthy) [Demo.constant] 0))
     = [key Demo.constant]
  /\ invoked MStop
       (trace (@stop _ _ (Demo.runtime Demo.all_healthy) [Demo.constant] 0))
     = [key Demo.constant].
Proof.
  split; [reflexivity|]. split; [vm_compute; eauto|].
  repeat split; vm_compute; reflexivity.
Qed.

(** The server tag is tested for truthiness, the life cycle tag for
    presence: a singleton whose only tag is a server tag with the empty
    string as its value is not in the sequences. *)
Example empty_server_tag :
  tagMap Demo.blank !! CoreBindings.SERVER_TAG = Some ""
  /\ isLifeCycleObserverBinding Demo.blank = false
  /\ start_order [Demo.blank] = []
  /\ stop_order [Demo.blank] = [].
Proof. repeat split; vm_compute; reflexivity. Qed.

(** C2.  The sequence [start()] iterates over is the set [find] returns,
    in ascending lexicographic order of the UTF-16 code units of the
    server-tag values read from the tag maps (an absent tag counting as
    the empty string), bindings with equal values keeping their discovery
    order; so the bindings whose server tag is absent or empty come first,
    in discovery order, followed by the others in ascending order.
    [start()] resolves the keys of that sequence in that order, up to the
    first failure and all of them when it succeeds, calls [start] on what
    it resolved that has the capability and never [stop]; when it succeeds,
    the capability being settled by the key, the observers started are
    those of the whole sequence that have the capability, in its order. *)
Theorem start_order_by_server_tag (reg : Registry) :
  let found := find isLifeCycleObserverBinding reg in
  let tagOf := fun b => default "" (tagMap b !! CoreBindings.SERVER_TAG) in
  let ascending := fun b1 b2 =>
    Js.lex_le (Js.code_units (tagOf b1)) (Js.code_units (tagOf b2)) in
  let tagless := fun b => bool_decide (tagOf b = "") in
  let servers := fun b => negb (tagless b) in
  Permutation (start_order reg) found
  /\ StronglySorted ascending (start_order reg)
  /\ (forall t, List.filter (fun b => bool_decide (tagOf b = t)) (start_order reg)
                = List.filter (fun b => bool_decide (tagOf b = t)) found)
  /\ start_order reg
     = List.filter tagless found ++ List.filter servers (start_order reg)
  /\ StronglySorted ascending (List.filter servers (start_order reg))
  /\ (forall St V (R : Runtime St V) s,
        (exists n,
            got (trace (start reg s)) = map key (firstn n (start_order reg))
            /\ (result (start reg s) = inr tt ->
                n = length (start_order reg)))
        /\ invoked MStart (trace (start reg s)) = capable (trace (start reg s))
        /\ invoked MStop (trace (start reg s)) = []
        /\ forall c : string -> bool,
             (forall k v, resolvable k v -> isLifeCycleObserver v = c k) ->
             result (start reg s) = inr tt ->
             invoked MStart (trace (start reg s))
             = List.filter c (map key (start_order reg))).
Proof.
  intros found tagOf ascending tagless servers.
  pose proof (ApplicationFacts.start_order_sorted reg) as Hsorted.
  assert (Htag : forall t l,
            List.filter (fun b => bool_decide (tagOf b = t)) l
            = List.filter (has_server_tag t) l).
  { intros t l. apply List.filter_ext. intros b.
    symmetry. apply ApplicationFacts.has_server_tag_decide. }
  assert (Hservers : forall l,
            List.filter servers l
            = List.filter (fun b => negb (has_server_tag "" b)) l).
  { intros l. apply List.filter_ext. intros b. unfold servers, tagless.
    now rewrite ApplicationFacts.has_server_tag_decide. }
  split; [apply ApplicationFacts.start_order_perm|].
  split; [now apply ApplicationFacts.sorted_lex|].
  split; [intros t; rewrite !Htag; apply ApplicationFacts.start_order_stable|].
  split; [|split].
  - unfold tagless. rewrite Htag, Hservers. unfold found.
    rewrite <- ApplicationFacts.start_order_stable.
    now apply ApplicationFacts.sorted_untagged_first.
  - rewrite Hservers. apply ApplicationFacts.sorted_lex.
    eapply ApplicationFacts.sorted_sublist; [|exact Hsorted].
    apply JsFacts.filter_sublist.
  - intros St V R s.
    change (start reg s) with (operation MStart reg s).
    rewrite (LifecycleFacts.operation_result MStart),
      (LifecycleFacts.operation_got MStart),
      (LifecycleFacts.operation_capable MStart),
      !(LifecycleFacts.operation_invoked MStart).
    split; [apply (LifecycleFacts.run_got MStart)|].
    split; [apply (LifecycleFacts.run_invoked MStart MStart)|].
    split; [apply (LifecycleFacts.run_invoked MStart MStop)|].
    intros c Hc Hok.
    apply (LifecycleFacts.run_invoked_filter c MStart _ _ Hc Hok).
Qed.

Lemma start_order_by_server_tag_witness :
  let R := Demo.runtime Demo.A_passive in
  invoked MStart (trace (@start _ _ R Demo.registry 0))
  = List.filter (fun k => match Demo.lookup_key k Demo.A_passive with
                          | Some v => Demo.lifecycle v
                          | None => false
                          end)
      (map key (start_order Demo.registry)).
Proof.
  intros R.
  refine (proj2 (proj2 (proj2 (proj2 (proj2 (proj2 (proj2 (proj2
            (start_order_by_server_tag Demo.registry)))))
            nat Demo.Observer R 0))) _ _ _).
  - intros k v [s [s' Hget]]. unfold get, R, Demo.runtime in Hget.
    change (isLifeCycleObserver v) with (Demo.lifecycle v).
    destruct (Demo.lookup_key k Demo.A_passive); inversion Hget; reflexivity.
  - vm_compute. reflexivity.
Defined.

(** The scenario of section 8: [start()] goes A, B, C and [stop()] goes
    C, B, A; the transient D is in neither. *)
Example scenario_order :
  start_order Demo.registry = [Demo.A; Demo.B; Demo.C]
  /\ stop_order Demo.registry = [Demo.C; Demo.B; Demo.A]
  /\ invoked MStart
       (trace (@start _ _ (Demo.runtime Demo.all_healthy) Demo.registry 0))
     = ["observers.A"; "servers.B"; "servers.C"]
  /\ invoked MStop
       (trace (@stop _ _ (Demo.runtime Demo.all_healthy) Demo.registry 0))
     = ["servers.C"; "servers.B"; "observers.A"].
Proof. repeat split; vm_compute; reflexivity. Qed.

(** Bindings with the same server tag keep their discovery order, and the
    order of the tags is that of strings, not of numbers: "v10" comes
    before "v2". *)
Example ties_and_string_order :
  map key (start_order [Demo.serverTagged "s1" "v2"; Demo.serverTagged "s2" "v10";
                        Demo.serverTagged "s3" "v2"; Demo.A;
                        Demo.serverTagged "s4" "v10"])
  = ["observers.A"; "s2"; "s4"; "s1"; "s3"].
Proof. vm_compute. reflexivity. Qed.

(** The order of the tags is that of their UTF-16 code units: a tag
    made of U+10000, a surrogate pair starting with 0xD800, comes before
    one made of U+E000, although its bytes come after. *)
Example code_unit_order :
  let astral := string_of_list_ascii (map ascii_of_N [240; 144; 128; 128]%N) in
  let private := string_of_list_ascii (map ascii_of_N [238; 128; 128]%N) in
  Js.code_units astral = [55296; 56320]%N
  /\ Js.code_units private = [57344]%N
  /\ String.ltb private astral = true
  /\ map key (start_order [Demo.serverTagged "s1" private;
                           Demo.serverTagged "s2" astral])
     = ["s2"; "s1"].
Proof. repeat split; vm_compute; reflexivity. Qed.

(** C3.  For one registry, [stop()] iterates over the reverse of the
    sequence [start()] iterates over; and when both operations succeed,
    the capability of what a key resolves to being settled by the key,
    the keys resolved and the observers called by [stop()] are those of
    [start()] in reverse order. *)
Theorem stop_reverses_start (reg : Registry) :
  stop_order reg = rev (start_order reg)
  /\ forall St V (R : Runtime St V) (c : string -> bool) (s1 s2 : St),
       (forall k v, resolvable k v -> isLifeCycleObserver v = c k) ->
       result (start reg s1) = inr tt ->
       result (stop reg s2) = inr tt ->
       got (trace (stop reg s2)) = rev (got (trace (start reg s1)))
       /\ invoked MStop (trace (stop reg s2))
          = rev (invoked MStart (trace (start reg s1))).
Proof.
  split; [reflexivity|].
  intros St V R c s1 s2 Hc Hstart Hstop.
  change (start reg s1) with (operation MStart reg s1) in *.
  change (stop reg s2) with (operation MStop reg s2) in *.
  rewrite (LifecycleFacts.operation_result MStart) in Hstart.
  rewrite (LifecycleFacts.operation_result MStop) in Hstop.
  split.
  - rewrite (LifecycleFacts.operation_got MStop),
      (LifecycleFacts.operation_got MStart).
    destruct (LifecycleFacts.run_got MStart (order MStart reg) s1)
      as [n1 [Hg1 Hn1]].
    destruct (LifecycleFacts.run_got MStop (order MStop reg) s2)
      as [n2 [Hg2 Hn2]].
    rewrite Hg1, Hg2, (Hn1 Hstart), (Hn2 Hstop), !firstn_all. simpl.
    unfold stop_order, Js.reverse. now rewrite map_rev.
  - rewrite (LifecycleFacts.operation_invoked MStop MStop),
      (LifecycleFacts.operation_invoked MStart MStart).
    rewrite (LifecycleFacts.run_invoked_filter c MStop _ _ Hc Hstop),
      (LifecycleFacts.run_invoked_filter c MStart _ _ Hc Hstart).
    simpl. unfold stop_order, Js.reverse.
    now rewrite map_rev, List.filter_rev.
Qed.

Lemma stop_reverses_start_witness :
  let R := Demo.runtime Demo.A_passive in
  got (trace (@stop _ _ R Demo.registry 7))
  = rev (got (trace (@start _ _ R Demo.registry 0)))
  /\ invoked MStop (trace (@stop _ _ R Demo.registry 7))
     = rev (invoked MStart (trace (@start _ _ R Demo.registry 0))).
Proof.
  intros R.
  apply (proj2 (stop_reverses_start Demo.registry) nat Demo.Observer R
           (fun k => match Demo.lookup_key k Demo.A_passive with
                     | Some v => Demo.lifecycle v
                     | None => false
                     end) 0 7).
  - intros k v [s [s' Hget]]. unfold get, R, Demo.runtime in Hget.
    change (isLifeCycleObserver v) with (Demo.lifecycle v).
    destruct (Demo.lookup_key k Demo.A_passive); inversion Hget; reflexivity.
  - vm_compute. reflexivity.
  - vm_compute. reflexivity.
Defined.

(** C4.  When the observer of the binding at position [i] of the
    sequence rejects its [start] (its [stop], for [stop()]), the turns
    before it having succeeded: the operation rejects with that very
    error, in the state the failing call left; the keys resolved are those
    at positions [0..i] and no others; the calls fulfilled are those of the
    observers among positions [0..i-1]; the only other call is the failing
    one; the other method (a rollback) is never called; and nothing is
    done after the failing call. *)
Theorem fail_fast (m : Method) (reg : Registry) {St V} (R : Runtime St V)
    (i : nat) (b : Binding) (s : St) (v : V) (s2 s3 : St) (e : Error) :
  let bs := order m reg in
  let o1 := Eff.for_of (firstn i bs) (turn m) s in
  let o := operation m reg s in
  nth_error bs i = Some b ->
  result o1 = inr tt ->
  get (key b) (final o1) = (inr v, s2) ->
  isLifeCycleObserver v = true ->
  observer_method m v s2 = (inl e, s3) ->
  result o = inl e
  /\ final o = s3
  /\ got (trace o) = map key (firstn (S i) bs)
  /\ fulfilled m (trace o) = capable (trace o1)
  /\ invoked m (trace o) = fulfilled m (trace o) ++ [key b]
  /\ invoked (other m) (trace o) = []
  /\ trace o = Debug (opening m) [] :: trace o1
               ++ [Get (key b) (inr v); Debug (entering m) [key b];
                   Invoke m (key b) (inl e)].
Proof.
  intros bs o1 o Hnth Hok Hget Hcap Hcall.
  assert (Hbs : bs = firstn i bs ++ b :: skipn (S i) bs).
  { clear -Hnth. revert i Hnth.
    induction bs as [|x bs IH]; intros [|i] Hnth; simpl in *;
      try discriminate.
    - now injection Hnth as ->.
    - f_equal. now apply IH. }
  pose proof (LifecycleFacts.run_fails_at m (firstn i bs) (skipn (S i) bs)
                b s v s2 s3 e Hok Hget Hcap Hcall) as Hrun.
  rewrite <- Hbs in Hrun. fold o1 in Hrun.
  assert (Hg1 : got (trace o1) = map key (firstn i bs)).
  { destruct (LifecycleFacts.run_got m (firstn i bs) s) as [n [Hn Hlen]].
    fold o1 in Hn, Hlen. now rewrite Hn, (Hlen Hok), firstn_all. }
  pose proof (LifecycleFacts.run_fulfilled m m (firstn i bs) s Hok) as Hf1.
  pose proof (LifecycleFacts.run_invoked m m (firstn i bs) s) as Hi1.
  pose proof (LifecycleFacts.run_invoked m (other m) (firstn i bs) s) as Ho1.
  fold o1 in Hf1, Hi1, Ho1.
  rewrite LifecycleFacts.Method_eqb_refl in Hi1.
  rewrite LifecycleFacts.Method_eqb_other in Ho1.
  unfold o.
  rewrite LifecycleFacts.operation_result, LifecycleFacts.operation_final,
    LifecycleFacts.operation_got, !LifecycleFacts.operation_invoked,
    LifecycleFacts.operation_fulfilled.
  rewrite LifecycleFacts.operation_unfold.
  fold bs. rewrite Hrun. simpl.
  rewrite !LifecycleFacts.got_app, !LifecycleFacts.invoked_app,
    !LifecycleFacts.fulfilled_app. simpl.
  rewrite LifecycleFacts.Method_eqb_refl, LifecycleFacts.Method_eqb_other.
  rewrite Hg1, Hf1, Hi1, Ho1, !app_nil_r.
  repeat split; try reflexivity.
  rewrite (LifecycleFacts.firstn_S_nth_error _ _ _ Hnth), map_app.
  reflexivity.
Qed.

Lemma fail_fast_witness :
  let R := Demo.runtime Demo.B_broken in
  let o := @start _ _ R Demo.registry 0 in
  result o = inl (UserError "port in use")
  /\ final o = 4
  /\ got (trace o) = map key [Demo.A; Demo.B]
  /\ fulfilled MStart (trace o) = ["observers.A"]
  /\ invoked MStart (trace o) = fulfilled MStart (trace o) ++ ["servers.B"]
  /\ invoked MStop (trace o) = [].
Proof.
  intros R o.
  destruct (fail_fast MStart Demo.registry R 1 Demo.B 0 Demo.broken 3 4
              (UserError "port in use"))
    as (Hr & Hf & Hg & Hful & Hinv & Hoth & _);
    try (vm_compute; reflexivity).
  repeat split; assumption.
Defined.

(** C5.  In every run of [start()] or [stop()]: the keys of the sequence
    are resolved in order (all of them when the run succeeds); the method
    is called on exactly the resolved values that pass
    [isLifeCycleObserver] at that time, and the other method on none.  A
    run that succeeds is, between its two [debug] lines, one block per
    binding: the resolution, followed for an observer by the call, awaited
    and fulfilled, between its own [debug] lines, before the next
    resolution.  A turn whose resolved value lacks the capability does
    nothing more and succeeds. *)
Theorem capability_tested_each_turn (m : Method) (reg : Registry) {St V}
    (R : Runtime St V) (s : St) :
  let o := operation m reg s in
  (exists n, got (trace o) = map key (firstn n (order m reg))
             /\ (result o = inr tt -> n = length (order m reg)))
  /\ invoked m (trace o) = capable (trace o)
  /\ invoked (other m) (trace o) = []
  /\ (result o = inr tt ->
      exists vs,
        Forall2 (fun b v => resolvable (key b) v) (order m reg) vs
        /\ fulfilled m (trace o) = invoked m (trace o)
        /\ trace o = Debug (opening m) []
                     :: flat_map (block m) (combine (map key (order m reg)) vs)
                     ++ [Debug (closing m) []])
  /\ (forall b s0 v s1,
        get (key b) s0 = (inr v, s1) ->
        isLifeCycleObserver v = false ->
        turn m b s0 = mkOutcome (inr tt) s1 [Get (key b) (inr v)]).
Proof.
  intros o. unfold o. split; [|split; [|split; [|split]]].
  - rewrite LifecycleFacts.operation_got, LifecycleFacts.operation_result.
    apply LifecycleFacts.run_got.
  - rewrite LifecycleFacts.operation_invoked, LifecycleFacts.operation_capable,
      LifecycleFacts.run_invoked.
    now rewrite LifecycleFacts.Method_eqb_refl.
  - rewrite LifecycleFacts.operation_invoked, LifecycleFacts.run_invoked.
    now rewrite LifecycleFacts.Method_eqb_other.
  - rewrite LifecycleFacts.operation_result. intros Hok.
    destruct (LifecycleFacts.run_success m (order m reg) s Hok)
      as [vs [Hvs Ht]].
    exists vs. split; [exact Hvs|]. split.
    + rewrite LifecycleFacts.operation_fulfilled,
        LifecycleFacts.operation_invoked.
      now apply LifecycleFacts.run_fulfilled.
    + rewrite LifecycleFacts.operation_unfold. simpl.
      now rewrite Hok, Ht.
  - intros b s0 v s1 Hget Hcap.
    pose proof (LifecycleFacts.turn_cases m b s0) as Hb.
    rewrite Hget, Hcap in Hb. rewrite Hb. unfold block. simpl.
    now rewrite Hcap.
Qed.

Lemma capability_tested_each_turn_witness :
  let R := Demo.runtime Demo.A_passive in
  let o := @start _ _ R Demo.registry 0 in
  got (trace o) = ["observers.A"; "servers.B"; "servers.C"]
  /\ invoked MStart (trace o) = ["servers.B"; "servers.C"]
  /\ fulfilled MStart (trace o) = invoked MStart (trace o)
  /\ turn MStart Demo.A 0
     = mkOutcome (inr tt) 1 [Get "observers.A" (inr Demo.passive)].
Proof.
  intros R o.
  destruct (capability_tested_each_turn MStart Demo.registry R 0)
    as (_ & Hinv & _ & Hok & Hskip).
  destruct (Hok ltac:(vm_compute; reflexivity)) as (vs & _ & Hful & _).
  split; [vm_compute; reflexivity|].
  split; [etransitivity; [exact Hinv|]; vm_compute; reflexivity|].
  split; [exact Hful|].
  apply (Hskip Demo.A 0 Demo.passive 1); vm_compute; reflexivity.
Defined.

(* ===================================================================== *)
(** * Facts about registration                                            *)
(* ===================================================================== *)

Module RegistrationFacts.
Import Context Registration.
Section Facts.
Context `{Container}.

Lemma contains_In (k : string) (reg : Registry) :
  contains k reg = true <-> In k (map key reg).
Proof.
  unfold contains. rewrite existsb_exists, in_map_iff.
  split; intros [b [Hb Hk]].
  - exists b. apply String.eqb_eq in Hk. now split.
  - exists b. split; [exact Hk | now apply String.eqb_eq].
Qed.

Lemma contains_app (k : string) (r1 r2 : Registry) :
  contains k (r1 ++ r2) = contains k r1 || contains k r2.
Proof. apply existsb_app. Qed.

Lemma contains_last (k : string) (reg : Registry) (b : Binding) :
  contains k (reg ++ [b]) = contains k reg || String.eqb (key b) k.
Proof. rewrite contains_app. simpl. now rewrite orb_false_r. Qed.

Lemma configure_other (f : Binding -> Binding) (k : string) (reg : Registry) :
  contains k reg = false ->
  map (fun b => if String.eqb (key b) k then f b else b) reg = reg.
Proof.
  induction reg as [|b reg IH]; simpl; [reflexivity|].
  intros Hk. apply orb_false_elim in Hk as [Hb Hreg].
  now rewrite Hb, IH.
Qed.

Lemma run_bind_fresh (k : string) (reg : Registry) :
  contains k reg = false ->
  bind k reg = mkOutcome (inr k) (reg ++ [newBinding k]) [].
Proof. intros Hk. unfold bind. now rewrite Hk. Qed.

Lemma run_bind_bound (k : string) (reg : Registry) :
  contains k reg = true ->
  bind k reg = mkOutcome (inl (DuplicateKeyError k)) reg [].
Proof. intros Hk. unfold bind. now rewrite Hk. Qed.

(** Configuring the binding just added leaves the others as they are. *)
Lemma run_configure_last (f : Binding -> Binding) (k : string)
    (reg : Registry) (b : Binding) :
  contains k reg = false -> key b = k ->
  configure f k (reg ++ [b]) = mkOutcome (inr k) (reg ++ [f b]) [].
Proof.
  intros Hk Hb. unfold configure. rewrite map_app, configure_other by exact Hk.
  simpl. rewrite Hb, String.eqb_refl. reflexivity.
Qed.

(** One successful step of a chain of registration calls. *)
Ltac run_step :=
  erewrite EffFacts.bind_inr
    by (first [ apply run_bind_fresh; assumption
              | apply run_configure_last;
                [assumption | first [reflexivity | assumption]] ]).

Ltac run_last :=
  erewrite run_configure_last by first [reflexivity | assumption].

Lemma controller_fresh (ctor : Constructor) (name : option string)
    (reg : Registry) :
  let k := controllerKey ctor name in
  contains k reg = false ->
  controller ctor name reg
  = mkOutcome (inr k) (reg ++ [controllerBinding k ctor])
      [("Adding controller %s", [nameOr name ctor])].
Proof.
  intros k Hk. unfold controller, debugLine. fold (controllerKey ctor name). fold k.
  unfold Eff.andThen at 1. simpl. unfold toClass, tag.
  do 2 run_step. run_last. reflexivity.
Qed.

Lemma controller_bound (ctor : Constructor) (name : option string)
    (reg : Registry) :
  let k := controllerKey ctor name in
  contains k reg = true ->
  controller ctor name reg
  = mkOutcome (inl (DuplicateKeyError k)) reg
      [("Adding controller %s", [nameOr name ctor])].
Proof.
  intros k Hk. unfold controller, debugLine. fold (controllerKey ctor name). fold k.
  unfold Eff.andThen at 1. simpl.
  rewrite (EffFacts.bind_inl _ _ _ _ _ _ (run_bind_bound k reg Hk)).
  reflexivity.
Qed.

Lemma server_fresh (ctor : Constructor) (name : option string)
    (reg : Registry) :
  let k := serverKey ctor name in
  contains k reg = false ->
  server ctor name reg
  = mkOutcome (inr k) (reg ++ [serverBinding k ctor])
      [("Adding server %s", [nameOr name ctor])].
Proof.
  intros k Hk. unfold server, debugLine. fold (serverKey ctor name). fold k.
  unfold Eff.andThen at 1. simpl.
  unfold toClass, tag, apply, asLifeCycleObserverBinding, tag.
  do 3 run_step. run_last. reflexivity.
Qed.

Lemma server_bound (ctor : Constructor) (name : option string)
    (reg : Registry) :
  let k := serverKey ctor name in
  contains k reg = true ->
  server ctor name reg
  = mkOutcome (inl (DuplicateKeyError k)) reg
      [("Adding server %s", [nameOr name ctor])].
Proof.
  intros k Hk. unfold server, debugLine. fold (serverKey ctor name). fold k.
  unfold Eff.andThen at 1. simpl.
  rewrite (EffFacts.bind_inl _ _ _ _ _ _ (run_bind_bound k reg Hk)).
  reflexivity.
Qed.

Lemma registerArtifact_registers (a : Artifact) :
  registers (registerArtifact a) (artifactKey a) (artifactBinding a).
Proof.
  intros reg. destruct a as [c|c|k c]; simpl;
    destruct (contains _ reg) eqn:Hk.
  - erewrite EffFacts.bind_inl by (apply controller_bound; exact Hk).
    now split.
  - erewrite EffFacts.bind_inr by (apply controller_fresh; exact Hk).
    now split.
  - erewrite EffFacts.bind_inl by (apply server_bound; exact Hk).
    now split.
  - erewrite EffFacts.bind_inr by (apply server_fresh; exact Hk).
    now split.
  - erewrite EffFacts.bind_inl by (apply run_bind_bound; exact Hk).
    now split.
  - unfold toProvider. do 2 run_step. now split.
Qed.

Lemma artifactBinding_key (a : Artifact) : key (artifactBinding a) = artifactKey a.
Proof. now destruct a. Qed.

Lemma mountComponent_artifacts (instance : Component.t) (reg : Registry) :
  mountComponent instance reg
  = Eff.for_of (artifacts instance) registerArtifact reg.
Proof.
  unfold mountComponent, artifacts.
  rewrite EffFacts.for_of_app. apply EffFacts.bind_ext_l.
  - intros s. now rewrite EffFacts.for_of_map.
  - intros _ s. rewrite EffFacts.for_of_app. apply EffFacts.bind_ext_l.
    + intros s'. now rewrite EffFacts.for_of_map.
    + intros _ s'. now rewrite EffFacts.for_of_map.
Qed.

(** ** Loops of registering steps *)

Lemma fresh_cons (k : string) (ks : list string) (reg : Registry) (b : Binding) :
  key b = k ->
  fresh (k :: ks) reg <-> contains k reg = false /\ fresh ks (reg ++ [b]).
Proof.
  intros Hb. unfold fresh. rewrite NoDup_cons, Forall_cons.
  assert (Hall : Forall (fun k' => contains k' (reg ++ [b]) = false) ks
                 <-> ~ k ∈ ks /\ Forall (fun k' => contains k' reg = false) ks).
  { rewrite !Forall_forall. split.
    - intros Hks. split.
      + intros Hin. specialize (Hks k Hin).
        rewrite contains_last, Hb, String.eqb_refl, orb_true_r in Hks.
        discriminate.
      + intros k' Hin. specialize (Hks k' Hin).
        rewrite contains_last in Hks. now apply orb_false_elim in Hks.
    - intros [Hnin Hks] k' Hin. rewrite contains_last, (Hks k' Hin), Hb.
      simpl. apply String.eqb_neq. intros ->. now apply Hnin. }
  rewrite Hall. tauto.
Qed.

Section Loop.
Context {A : Type} (step : A -> Reg unit) (keyof : A -> string)
  (mk : A -> Binding).
Hypothesis step_registers : forall x, registers (step x) (keyof x) (mk x).
Hypothesis mk_key : forall x, key (mk x) = keyof x.

(** The loop succeeds exactly when the keys are fresh, and then it has
    added the bindings in order. *)
Lemma for_of_registers (xs : list A) (reg : Registry) :
  let o := Eff.for_of xs step reg in
  (result o = inr tt <-> fresh (map keyof xs) reg)
  /\ (result o = inr tt -> final o = reg ++ map mk xs)
  /\ (forall e, result o = inl e ->
                exists x, In x xs /\ e = DuplicateKeyError (keyof x))
  /\ (exists n, final o = reg ++ map mk (firstn n xs)).
Proof using step_registers mk_key.
  revert reg. induction xs as [|x xs IH]; intros reg; simpl.
  - split; [|split; [|split]].
    + split; [intros _; split; constructor | reflexivity].
    + intros _. now rewrite app_nil_r.
    + discriminate.
    + exists 0. now rewrite app_nil_r.
  - destruct (step_registers x reg) as [Hr Hf].
    rewrite (fresh_cons (keyof x) _ reg (mk x) (mk_key x)).
    destruct (contains (keyof x) reg) eqn:Hk.
    + destruct (EffFacts.bind_result_inl (step x)
                  (fun _ => Eff.for_of xs step) reg _ Hr) as [Hr' Hf'].
      rewrite Hr', Hf', Hf. split; [|split; [|split]].
      * split; [discriminate | intros [? _]; discriminate].
      * discriminate.
      * intros e [= <-]. exists x. split; [now left | reflexivity].
      * exists 0. simpl. now rewrite app_nil_r.
    + destruct (EffFacts.bind_result_inr (step x)
                  (fun _ => Eff.for_of xs step) reg _ Hr) as [Hr' Hf'].
      rewrite Hr', Hf', Hf.
      destruct (IH (reg ++ [mk x])) as (Hok & Hfin & Herr & [n Hn]).
      split; [|split; [|split]].
      * rewrite Hok. tauto.
      * intros Hres. rewrite (Hfin Hres), <- app_assoc. reflexivity.
      * intros e He. destruct (Herr e He) as [y [Hy ->]].
        exists y. split; [now right | reflexivity].
      * exists (S n). rewrite Hn, <- app_assoc. reflexivity.
Qed.

End Loop.

Lemma mountComponent_spec (instance : Component.t) (reg : Registry) :
  let o := mountComponent instance reg in
  let arts := artifacts instance in
  (result o = inr tt <-> fresh (map artifactKey arts) reg)
  /\ (result o = inr tt -> final o = reg ++ map artifactBinding arts)
  /\ (forall e, result o = inl e ->
                exists a, In a arts /\ e = DuplicateKeyError (artifactKey a))
  /\ (exists n, final o = reg ++ map artifactBinding (firstn n arts)).
Proof.
  rewrite mountComponent_artifacts.
  apply for_of_registers;
    [apply registerArtifact_registers | apply artifactBinding_key].
Qed.

(** ** [component] *)

Lemma getBinding_last (k : string) (reg : Registry) (b : Binding) :
  contains k reg = false -> key b = k -> getBinding k (reg ++ [b]) = Some b.
Proof.
  intros Hk Hb. unfold getBinding.
  induction reg as [|c reg IH]; simpl in *.
  - now rewrite Hb, String.eqb_refl.
  - apply orb_false_elim in Hk as [Hc Hreg]. rewrite Hc. now apply IH.
Qed.

Lemma run_asLifeCycleObserverBinding_last (k : string) (reg : Registry)
    (b : Binding) :
  contains k reg = false -> key b = k ->
  asLifeCycleObserverBinding k (reg ++ [b])
  = mkOutcome (inr k)
      (reg ++ [Binding_tag CoreBindings.LIFE_CYCLE_OBSERVER_TAG b]) [].
Proof.
  intros Hk Hb. unfold asLifeCycleObserverBinding, tag.
  run_last. reflexivity.
Qed.

Lemma run_getSync_last (k : string) (reg : Registry) (b : Binding)
    (ctor : Constructor) :
  contains k reg = false -> key b = k -> valueConstructor b = Some ctor ->
  getSync k (reg ++ [b]) = mkOutcome (instantiate ctor) (reg ++ [b]) [].
Proof.
  intros Hk Hb Hc. unfold getSync.
  now rewrite (getBinding_last k reg b Hk Hb), Hc.
Qed.

Lemma componentBinding_key (k : string) (ctor : Constructor) :
  key (componentBinding k ctor) = k.
Proof. unfold componentBinding. now destruct (isLifeCycleObserverClass ctor). Qed.

Lemma componentBinding_valueConstructor (k : string) (ctor : Constructor) :
  valueConstructor (componentBinding k ctor) = Some ctor.
Proof. unfold componentBinding. now destruct (isLifeCycleObserverClass ctor). Qed.

Lemma component_bound (ctor : Constructor) (name : option string)
    (reg : Registry) :
  let k := componentKey ctor name in
  contains k reg = true ->
  component ctor name reg = mkOutcome (inl (DuplicateKeyError k)) reg [].
Proof.
  intros k Hk. unfold component. fold (componentKey ctor name). fold k.
  now rewrite (EffFacts.bind_inl _ _ _ _ _ _ (run_bind_bound k reg Hk)).
Qed.

(** With a free key, [component] leaves the component's binding in the
    registry, instantiates the class, and goes on with [mountComponent]. *)
Lemma component_fresh (ctor : Constructor) (name : option string)
    (reg : Registry) :
  let k := componentKey ctor name in
  let reg0 := reg ++ [componentBinding k ctor] in
  let o := component ctor name reg in
  contains k reg = false ->
  match instantiate ctor with
  | inl e => result o = inl e /\ final o = reg0
  | inr instance =>
      result o = result (mountComponent instance reg0)
      /\ final o = final (mountComponent instance reg0)
  end.
Proof.
  intros k reg0 o Hk. unfold o, component.
  fold (componentKey ctor name). fold k.
  unfold toClass, inScope, tag, apply. do 4 run_step.
  assert (Hwired :
    exists trace0,
      (if isLifeCycleObserverClass ctor
       then asLifeCycleObserverBinding k
       else Eff.ret k)
        (reg ++ [Binding_tag CoreBindings.COMPONENT_TAG
                   (Binding_inScope BindingScope.SINGLETON
                      (Binding_toClass ctor (newBinding k)))])
      = mkOutcome (inr k) reg0 trace0).
  { unfold reg0, componentBinding.
    destruct (isLifeCycleObserverClass ctor).
    - eexists. now apply run_asLifeCycleObserverBinding_last.
    - eexists. reflexivity. }
  destruct Hwired as [trace0 Hwired].
  rewrite (EffFacts.bind_inr _ _ _ _ _ _ Hwired).
  pose proof (run_getSync_last k reg (componentBinding k ctor) ctor Hk
                (componentBinding_key k ctor)
                (componentBinding_valueConstructor k ctor)) as Hget.
  fold reg0 in Hget.
  destruct (instantiate ctor) as [e|instance].
  - rewrite (EffFacts.bind_inl _ _ _ _ _ _ Hget). now split.
  - rewrite (EffFacts.bind_inr _ _ _ _ _ _ Hget). now split.
Qed.

(** Whatever [component] does, the component's key is bound afterwards. *)
Lemma component_binds_key (ctor : Constructor) (name : option string)
    (reg : Registry) :
  contains (componentKey ctor name) (final (component ctor name reg)) = true.
Proof.
  destruct (contains (componentKey ctor name) reg) eqn:Hk.
  - now rewrite component_bound.
  - pose proof (component_fresh ctor name reg Hk) as Hc. simpl in Hc.
    assert (Hk0 : contains (componentKey ctor name)
                    (reg ++ [componentBinding (componentKey ctor name) ctor])
                  = true).
    { rewrite contains_last, componentBinding_key, String.eqb_refl.
      apply orb_true_r. }
    destruct (instantiate ctor) as [e|instance].
    + destruct Hc as [_ ->]. exact Hk0.
    + destruct Hc as [_ ->].
      destruct (mountComponent_spec instance
                  (reg ++ [componentBinding (componentKey ctor name) ctor]))
        as (_ & _ & _ & [n ->]).
      rewrite contains_app, Hk0. reflexivity.
Qed.

Lemma getBinding_skip (k : string) (reg rest : Registry) :
  contains k reg = false -> getBinding k (reg ++ rest) = getBinding k rest.
Proof.
  intros Hk. unfold getBinding.
  induction reg as [|c reg IH]; simpl in *; [reflexivity|].
  apply orb_false_elim in Hk as [Hc Hreg]. rewrite Hc. now apply IH.
Qed.

Lemma getBinding_first (k : string) (reg rest : Registry) (b : Binding) :
  contains k reg = false -> key b = k ->
  getBinding k (reg ++ b :: rest) = Some b.
Proof.
  intros Hk Hb. rewrite getBinding_skip by exact Hk.
  unfold getBinding. simpl. now rewrite Hb, String.eqb_refl.
Qed.

Lemma fresh_nil (reg : Registry) : fresh [] reg.
Proof. split; constructor. Qed.

Lemma fresh_app (bs : list Binding) (ks : list string) (reg : Registry) :
  fresh (map key bs ++ ks) reg
  <-> fresh (map key bs) reg /\ fresh ks (reg ++ bs).
Proof.
  revert reg. induction bs as [|b bs IH]; intros reg; simpl.
  - rewrite app_nil_r. pose proof (fresh_nil reg). tauto.
  - rewrite !(fresh_cons (key b) _ reg b eq_refl), IH, <- app_assoc.
    simpl. tauto.
Qed.

(** ** [servers] *)

Lemma servers_spec (ctors : list Constructor) (reg : Registry) :
  let o := servers ctors reg in
  let keys := map (fun c => serverKey c None) ctors in
  (fresh keys reg -> result o = inr keys)
  /\ (forall refs, result o = inr refs ->
        refs = keys /\ fresh keys reg
        /\ final o
           = reg ++ map (fun c => serverBinding (serverKey c None) c) ctors).
Proof.
  revert reg. induction ctors as [|c ctors IH]; intros reg; simpl.
  - split; [reflexivity|]. intros refs [= <-].
    split; [reflexivity|]. split; [apply fresh_nil | now rewrite app_nil_r].
  - rewrite (fresh_cons (serverKey c None) _ reg
               (serverBinding (serverKey c None) c) eq_refl).
    destruct (contains (serverKey c None) reg) eqn:Hk.
    + rewrite (EffFacts.bind_inl _ _ _ _ _ _ (server_bound c None reg Hk)).
      simpl. split; [intros [? _]; discriminate | discriminate].
    + rewrite (EffFacts.bind_inr _ _ _ _ _ _ (server_fresh c None reg Hk)).
      simpl.
      destruct (IH (reg ++ [serverBinding (serverKey c None) c]))
        as [Hok Hrefs].
      destruct (result (servers ctors
                          (reg ++ [serverBinding (serverKey c None) c])))
        as [e|refs'] eqn:Hres.
      * unfold Eff.andThen. rewrite Hres. simpl.
        split; [|discriminate].
        intros [_ Hfresh]. specialize (Hok Hfresh). discriminate.
      * unfold Eff.andThen. rewrite Hres. simpl.
        destruct (Hrefs refs' eq_refl) as (-> & Hfresh & ->).
        split; [reflexivity|]. intros refs [= <-].
        split; [reflexivity|]. split; [|now rewrite <- app_assoc].
        apply (fresh_cons (serverKey c None) _ reg
                 (serverBinding (serverKey c None) c) eq_refl).
        now split.
Qed.

Lemma getBinding_registered {A} (keyof : A -> string) (mk : A -> Binding)
    (xs : list A) (reg : Registry) (x : A) :
  (forall y, key (mk y) = keyof y) ->
  fresh (map keyof xs) reg -> In x xs ->
  getBinding (keyof x) (reg ++ map mk xs) = Some (mk x).
Proof.
  intros Hkey. revert reg. induction xs as [|y xs IH]; intros reg Hf Hin;
    [destruct Hin|].
  simpl in Hf. apply (fresh_cons (keyof y) _ reg (mk y) (Hkey y)) in Hf.
  destruct Hf as [Hy Hf]. destruct Hin as [->|Hin].
  - simpl. now apply getBinding_first.
  - simpl. change (reg ++ mk y :: map mk xs) with (reg ++ [mk y] ++ map mk xs).
    rewrite app_assoc. now apply IH.
Qed.

End Facts.
End RegistrationFacts.

(* ===================================================================== *)
(** * Registration of components and servers                              *)
(* ===================================================================== *)

Import Context Registration.



(** C7.  [server(ctor, name)] throws when 'servers.<name or ctor.name>'
    is bound; otherwise it adds under that key a class binding tagged
    "server" and wired as a life cycle observer (tagged so; [server] sets
    no scope, the binding has the scope of a fresh binding), and returns
    it.  [servers(ctors)] succeeds exactly when the keys
    'servers.<ctor.name>' are free and distinct, and then it has added one
    such binding per constructor, in order, and returns them in that
    order. *)
Theorem server_registration (C : Container) :
  (forall ctor name reg,
     let k := serverKey ctor name in
     let o := server ctor name reg in
     k = ("servers." ++ Js.or_else name (ctor_name ctor))%string
     /\ (contains k reg = true ->
         result o = inl (DuplicateKeyError k) /\ final o = reg)
     /\ (contains k reg = false ->
         exists b,
           result o = inr k
           /\ final o = reg ++ [b]
           /\ getBinding k (final o) = Some b
           /\ key b = k
           /\ type b = Some BindingType.CLASS
           /\ valueConstructor b = Some ctor
           /\ is_Some (tagMap b !! CoreBindings.SERVER_TAG)
           /\ is_Some (tagMap b !! CoreBindings.LIFE_CYCLE_OBSERVER_TAG)
           /\ scope b = default_scope))
  /\ (forall ctors reg,
        let o := servers ctors reg in
        let keys := map (fun c => ("servers." ++ ctor_name c)%string) ctors in
        (fresh keys reg -> result o = inr keys)
        /\ (forall refs,
              result o = inr refs ->
              refs = keys
              /\ fresh keys reg
              /\ final o
                 = reg ++ map (fun c => serverBinding (serverKey c None) c) ctors
              /\ (forall c, In c ctors ->
                    getBinding (serverKey c None) (final o)
                    = Some (serverBinding (serverKey c None) c)))).
Proof.
  split.
  - intros ctor name reg k o. split; [reflexivity|]. split.
    + intros Hk. unfold o. now rewrite RegistrationFacts.server_bound.
    + intros Hk. exists (serverBinding k ctor). unfold o.
      rewrite RegistrationFacts.server_fresh by exact Hk. simpl. fold k.
      split; [reflexivity|]. split; [reflexivity|].
      split; [now apply RegistrationFacts.getBinding_last|].
      repeat (split; [reflexivity|]).
      split; [|split; [|reflexivity]].
      * rewrite lookup_insert_ne by discriminate.
        rewrite lookup_insert_eq. eauto.
      * rewrite lookup_insert_eq. eauto.
  - intros ctors reg o keys.
    destruct (RegistrationFacts.servers_spec ctors reg) as [Hok Hrefs].
    split; [exact Hok|]. intros refs Hres.
    destruct (Hrefs refs Hres) as (-> & Hfresh & Hfinal).
    split; [reflexivity|]. split; [exact Hfresh|]. split; [exact Hfinal|].
    intros c Hc. unfold o. rewrite Hfinal.
    now apply (RegistrationFacts.getBinding_registered
                 (fun c => serverKey c None)
                 (fun c => serverBinding (serverKey c None) c)).
Qed.

Lemma server_registration_witness :
  result (@servers Demo.container [Demo.RestServer; Demo.GRPCServer]
            Demo.registry)
  = inr ["servers.RestServer"; "servers.GRPCServer"]
  /\ result (@server Demo.container Demo.RestServer (Some "C") Demo.registry)
     = inl (DuplicateKeyError "servers.C").
Proof.
  split.
  - apply (proj1 (proj2 (server_registration Demo.container)
                    [Demo.RestServer; Demo.GRPCServer] Demo.registry)).
    split; [|repeat constructor].
    repeat constructor; rewrite list_elem_of_In; simpl; intuition discriminate.
  - apply (proj1 (proj2 (proj1 (server_registration Demo.container)
                           Demo.RestServer (Some "C") Demo.registry))).
    reflexivity.
Defined.

(** C8.  (a) After a component was mounted, mounting a component whose
    derived key is the same throws the duplicate-key error for that key
    and changes nothing.  (b) Two components whose keys and artifact keys
    are free and pairwise distinct, and whose constructors return, mount
    one after the other, and [find] returns both component bindings
    whenever its predicate accepts them.  (c) When the constructor throws,
    [component] throws that error.  (d) When a declared artifact's key is
    bound already, [component] throws the duplicate-key error of a
    declared artifact. *)
Theorem component_collisions (C : Container) :
  (forall c1 n1 c2 n2 reg,
     componentKey c1 n1 = componentKey c2 n2 ->
     let o1 := component c1 n1 reg in
     let o2 := component c2 n2 (final o1) in
     result o2 = inl (DuplicateKeyError (componentKey c2 n2))
     /\ final o2 = final o1)
  /\ (forall c1 n1 c2 n2 i1 i2 reg,
        instantiate c1 = inr i1 ->
        instantiate c2 = inr i2 ->
        fresh (componentKey c1 n1 :: map artifactKey (artifacts i1)
               ++ componentKey c2 n2 :: map artifactKey (artifacts i2)) reg ->
        let o1 := component c1 n1 reg in
        let o2 := component c2 n2 (final o1) in
        result o1 = inr tt /\ result o2 = inr tt
        /\ exists b1 b2,
             key b1 = componentKey c1 n1 /\ key b2 = componentKey c2 n2
             /\ forall pred,
                  (pred b1 = true -> In b1 (find pred (final o2)))
                  /\ (pred b2 = true -> In b2 (find pred (final o2))))
  /\ (forall ctor name reg e,
        contains (componentKey ctor name) reg = false ->
        instantiate ctor = inl e ->
        result (component ctor name reg) = inl e)
  /\ (forall ctor name reg instance a,
        contains (componentKey ctor name) reg = false ->
        instantiate ctor = inr instance ->
        In a (artifacts instance) ->
        contains (artifactKey a)
          (reg ++ [componentBinding (componentKey ctor name) ctor]) = true ->
        exists a', In a' (artifacts instance)
                   /\ result (component ctor name reg)
                      = inl (DuplicateKeyError (artifactKey a'))).
Proof.
  split; [|split; [|split]].
  - intros c1 n1 c2 n2 reg Hkey o1 o2. unfold o2.
    rewrite RegistrationFacts.component_bound; [now split|].
    rewrite <- Hkey. apply RegistrationFacts.component_binds_key.
  - intros c1 n1 c2 n2 i1 i2 reg Hi1 Hi2 Hfresh o1 o2.
    set (k1 := componentKey c1 n1) in *. set (k2 := componentKey c2 n2) in *.
    set (b1 := componentBinding k1 c1). set (b2 := componentBinding k2 c2).
    set (m1 := map artifactBinding (artifacts i1)).
    set (m2 := map artifactBinding (artifacts i2)).
    assert (Hkeys : forall i, map key (map artifactBinding (artifacts i))
                              = map artifactKey (artifacts i)).
    { intros i. rewrite map_map. apply map_ext.
      apply RegistrationFacts.artifactBinding_key. }
    (* the first component *)
    apply (RegistrationFacts.fresh_cons k1 _ reg b1
             (RegistrationFacts.componentBinding_key k1 c1)) in Hfresh.
    destruct Hfresh as [Hk1 Hfresh].
    rewrite <- (Hkeys i1) in Hfresh.
    apply RegistrationFacts.fresh_app in Hfresh as [Hf1 Hfresh].
    rewrite (Hkeys i1) in Hf1.
    pose proof (RegistrationFacts.component_fresh c1 n1 reg Hk1) as Hc1.
    simpl in Hc1. rewrite Hi1 in Hc1. fold k1 b1 o1 in Hc1.
    destruct Hc1 as [Hr1 Hfin1].
    destruct (RegistrationFacts.mountComponent_spec i1 (reg ++ [b1]))
      as (Hok1 & Hadd1 & _ & _).
    apply Hok1 in Hf1. specialize (Hadd1 Hf1). fold m1 in Hadd1.
    rewrite Hf1 in Hr1. rewrite Hadd1 in Hfin1.
    (* the second component *)
    fold m1 in Hfresh. rewrite <- Hfin1 in Hfresh.
    apply (RegistrationFacts.fresh_cons k2 _ (final o1) b2
             (RegistrationFacts.componentBinding_key k2 c2)) in Hfresh.
    destruct Hfresh as [Hk2 Hf2].
    pose proof (RegistrationFacts.component_fresh c2 n2 (final o1) Hk2) as Hc2.
    simpl in Hc2. rewrite Hi2 in Hc2. fold k2 b2 o2 in Hc2.
    destruct Hc2 as [Hr2 Hfin2].
    destruct (RegistrationFacts.mountComponent_spec i2 (final o1 ++ [b2]))
      as (Hok2 & Hadd2 & _ & _).
    apply Hok2 in Hf2. specialize (Hadd2 Hf2). fold m2 in Hadd2.
    rewrite Hf2 in Hr2. rewrite Hadd2 in Hfin2.
    split; [exact Hr1|]. split; [exact Hr2|].
    exists b1, b2.
    split; [apply RegistrationFacts.componentBinding_key|].
    split; [apply RegistrationFacts.componentBinding_key|].
    intros pred. unfold find. rewrite !filter_In, Hfin2, Hfin1.
    split; intros Hp; (split; [|exact Hp]);
      rewrite !in_app_iff; simpl; tauto.
  - intros ctor name reg e Hk He.
    pose proof (RegistrationFacts.component_fresh ctor name reg Hk) as Hc.
    simpl in Hc. rewrite He in Hc. apply Hc.
  - intros ctor name reg instance a Hk Hi Ha Hbound.
    pose proof (RegistrationFacts.component_fresh ctor name reg Hk) as Hc.
    simpl in Hc. rewrite Hi in Hc. destruct Hc as [Hr _].
    destruct (RegistrationFacts.mountComponent_spec instance
                (reg ++ [componentBinding (componentKey ctor name) ctor]))
      as (Hok & _ & Herr & _).
    rewrite Hr.
    destruct (result (mountComponent instance
                (reg ++ [componentBinding (componentKey ctor name) ctor])))
      as [e|[]].
    + destruct (Herr e eq_refl) as [a' [Ha' ->]]. now exists a'.
    + exfalso. destruct (proj1 Hok eq_refl) as [_ Hall].
      rewrite List.Forall_forall in Hall.
      specialize (Hall (artifactKey a) (in_map _ _ _ Ha)). congruence.
Qed.

Lemma component_collisions_witness :
  let C := Demo.container in
  (let o1 := @component C Demo.CacheComponent None Demo.registry in
   result (@component C Demo.ProductComponent (Some "CacheComponent") (final o1))
   = inl (DuplicateKeyError "components.CacheComponent"))
  /\ (let o1 := @component C Demo.CacheComponent None Demo.registry in
      let o2 := @component C Demo.ProductComponent None (final o1) in
      result o1 = inr tt /\ result o2 = inr tt)
  /\ result (@component C Demo.BrokenComponent None Demo.registry)
     = inl (UserError "constructor failed")
  /\ exists a',
       result (@component C Demo.ClashingComponent None
                 (final (@component C Demo.ProductComponent None Demo.registry)))
       = inl (DuplicateKeyError (artifactKey a')).
Proof.
  intros C.
  destruct (component_collisions C) as (Hdup & Htwo & Hthrow & Hclash).
  split; [|split; [|split]].
  - apply (Hdup Demo.CacheComponent None Demo.ProductComponent
             (Some "CacheComponent") Demo.registry eq_refl).
  - destruct (Htwo Demo.CacheComponent None Demo.ProductComponent None
                (Component.mk [] [] [])
                (Component.mk [Demo.ProductController] [Demo.RestServer]
                   [("authentication.strategy", Demo.AuthStrategy)])
                Demo.registry eq_refl eq_refl) as (Hr1 & Hr2 & _).
    + split; [|repeat constructor].
      repeat constructor; rewrite list_elem_of_In; simpl;
        intuition discriminate.
    + now split.
  - apply (Hthrow Demo.BrokenComponent None Demo.registry _ eq_refl eq_refl).
  - destruct (Hclash Demo.ClashingComponent None
                (final (@component C Demo.ProductComponent None Demo.registry))
                (Component.mk [Demo.ProductController] [] [])
                (AController Demo.ProductController))
      as [a' [_ Ha']]; try (vm_compute; reflexivity).
    + left. reflexivity.
    + now exists a'.
Defined.

(* ===================================================================== *)
(** * The migration script and the repository guard                       *)
(* ===================================================================== *)

Module MigrateFacts.
Import Migrate.
Section Facts.
Context {St : Type} `{TodoListApplication St}.

(** Both revisions of [migrate] make at most one [migrateSchema] call,
    after [boot], with the options literal built from [args]. *)
Lemma migrate_calls (args : list string) (s : St) :
  let flag := Js.includes args "--rebuild" in
  let calls := migrateSchemaCalls (trace (migrate args s)) in
  let calls' := migrateSchemaCalls (trace (migrate' args s)) in
  match new s with
  | (inl _, _) => calls = [] /\ calls' = []
  | (inr _, s1) =>
      match boot s1 with
      | (inl _, _) => calls = [] /\ calls' = []
      | (inr _, _) =>
          calls = [mkOptions (Some flag) None]
          /\ calls' = [mkOptions None (Some flag)]
      end
  end.
Proof.
  unfold migrate, migrate', Eff.andThen, Eff.call, Eff.emit; simpl.
  destruct (new s) as [[e|[]] s1]; simpl; [now split|].
  destruct (boot s1) as [[e|[]] s2]; simpl; [now split|].
  destruct (migrateSchema _ s2) as [[e|[]] s3];
    destruct (migrateSchema _ s2) as [[e'|[]] s3']; simpl; now split.
Qed.

End Facts.
End MigrateFacts.

Import Migrate.

(** C9.  For every argument list, the flag [migrate] computes is true
    exactly when the list contains the string "--rebuild"; every
    [migrateSchema] call of the script carries that flag as its
    drop-and-recreate option (under the name [dropExistingSchema] in the
    first revision, [rebuild] in the second); and once the application is
    constructed and booted there is exactly one such call. *)
Theorem migrate_rebuild_flag {St : Type} (T : TodoListApplication St)
    (args : list string) (s : St) :
  let flag := Js.includes args "--rebuild" in
  (flag = true <-> In "--rebuild" args)
  /\ (forall o, In o (migrateSchemaCalls (trace (migrate args s))
                      ++ migrateSchemaCalls (trace (migrate' args s))) ->
                dropAndRecreate o = Some flag
                /\ (dropAndRecreate o = Some true <-> In "--rebuild" args)
                /\ (dropAndRecreate o = Some false <-> ~ In "--rebuild" args))
  /\ (forall s1 s2,
        new s = (inr tt, s1) -> boot s1 = (inr tt, s2) ->
        migrateSchemaCalls (trace (migrate args s))
        = [{| dropExistingSchema := Some flag; rebuild := None |}]
        /\ migrateSchemaCalls (trace (migrate' args s))
           = [{| dropExistingSchema := None; rebuild := Some flag |}]).
Proof.
  intros flag.
  assert (Hflag : flag = true <-> In "--rebuild" args)
    by apply JsFacts.includes_In.
  pose proof (MigrateFacts.migrate_calls args s) as Hcalls.
  cbv zeta in Hcalls. fold flag in Hcalls.
  split; [exact Hflag|]. split.
  - intros o Ho.
    assert (Hdrop : dropAndRecreate o = Some flag).
    { destruct (new s) as [[e|[]] s1];
        [destruct Hcalls as [Hc Hc']; rewrite Hc, Hc' in Ho; destruct Ho|].
      destruct (boot s1) as [[e|[]] s2];
        destruct Hcalls as [Hc Hc']; rewrite Hc, Hc' in Ho; simpl in Ho;
        [destruct Ho | destruct Ho as [<-|[<-|[]]]; reflexivity]. }
    rewrite Hdrop. split; [reflexivity|].
    rewrite <- Hflag. destruct flag; split; split; congruence.
  - intros s1 s2 Hnew Hboot. now rewrite Hnew, Hboot in Hcalls.
Qed.

Lemma migrate_rebuild_flag_witness :
  let args := ["node"; "dist/src/migrate"; "--rebuild"] in
  migrateSchemaCalls (trace (@migrate _ Demo.todoApp args 0))
  = [{| dropExistingSchema := Some true; rebuild := None |}]
  /\ migrateSchemaCalls (trace (@migrate' _ Demo.todoApp args 0))
     = [{| dropExistingSchema := None; rebuild := Some true |}].
Proof.
  intros args.
  apply (proj2 (proj2 (migrate_rebuild_flag Demo.todoApp args 0)) 1 2);
    reflexivity.
Defined.

(** An argument that merely starts with, or contains, "--rebuild" does
    not ask for a rebuild. *)
Example migrate_update_by_default :
  migrateSchemaCalls
    (trace (@migrate _ Demo.todoApp ["node"; "migrate"; "--rebuild=yes"] 0))
  = [{| dropExistingSchema := Some false; rebuild := None |}].
Proof. reflexivity. Qed.

Import MigrateableRepository.

(** C10.  [isMigrateableRepository(repo)] throws a TypeError when [repo]
    is [null] or [undefined]; on every other value it returns, and it
    returns [true] exactly when the value's [migrateSchema] property is a
    function.  The result depends on that property alone. *)
Theorem isMigrateableRepository_spec (repo : JsValue) :
  (repo = JsNull \/ repo = JsUndefined ->
   exists msg, isMigrateableRepository repo = inl (TypeError msg))
  /\ (repo <> JsNull -> repo <> JsUndefined ->
      exists m,
        getProperty repo "migrateSchema" = inr m
        /\ isMigrateableRepository repo
           = inr (String.eqb (typeof m) "function")
        /\ (isMigrateableRepository repo = inr true
            <-> exists props, m = JsFunction props))
  /\ (forall repo', sameMigrateSchema repo repo' ->
        isMigrateableRepository repo = isMigrateableRepository repo').
Proof.
  split; [|split].
  - intros [-> | ->]; eexists; reflexivity.
  - intros Hnull Hundef.
    assert (Hm : exists m, getProperty repo "migrateSchema" = inr m)
      by (destruct repo; try contradiction; eexists; reflexivity).
    destruct Hm as [m Hm]. exists m. unfold isMigrateableRepository.
    rewrite Hm. split; [reflexivity|]. split; [reflexivity|].
    destruct m; simpl; split;
      try (intros [= ?]; discriminate);
      try (intros [? ?]; discriminate);
      eauto.
  - intros repo' Hsame. unfold isMigrateableRepository.
    unfold sameMigrateSchema in Hsame. now rewrite Hsame.
Qed.

Lemma isMigrateableRepository_spec_witness :
  (exists msg, isMigrateableRepository JsNull = inl (TypeError msg))
  /\ isMigrateableRepository Demo.bareMigrator = inr true
  /\ isMigrateableRepository Demo.crudRepository = inr false
  /\ isMigrateableRepository Demo.flaggedRepository = inr false.
Proof.
  split; [apply (proj1 (isMigrateableRepository_spec JsNull)); now left|].
  split; [|split].
  - destruct (proj1 (proj2 (isMigrateableRepository_spec Demo.bareMigrator)))
      as (m & Hm & Hres & Hiff); try discriminate.
    apply Hiff. injection Hm as <-. now eexists.
  - destruct (proj1 (proj2 (isMigrateableRepository_spec Demo.crudRepository)))
      as (m & Hm & Hres & _); try discriminate.
    rewrite Hres. injection Hm as <-. reflexivity.
  - destruct (proj1 (proj2 (isMigrateableRepository_spec Demo.flaggedRepository)))
      as (m & Hm & Hres & _); try discriminate.
    rewrite Hres. injection Hm as <-. reflexivity.
Defined.

(* ===================================================================== *)
(** * Further properties of the life cycle coordinator                    *)
(* ===================================================================== *)

Module OrderFacts.
Import Application Lifecycle.

Lemma StronglySorted_snoc {A} (R : A -> A -> Prop) (l : list A) (a : A) :
  StronglySorted R l -> (forall x, In x l -> R x a) ->
  StronglySorted R (l ++ [a]).
Proof.
  induction 1 as [|b l Hl IH Hb]; intros Ha; simpl.
  - repeat constructor.
  - constructor; [apply IH; intros x Hx; apply Ha; now right|].
    apply List.Forall_forall. intros x Hx. apply in_app_iff in Hx as [Hx|[<-|[]]].
    + now apply (proj1 (List.Forall_forall _ _) Hb).
    + apply Ha. now left.
Qed.

Lemma StronglySorted_rev {A} (R : A -> A -> Prop) (l : list A) :
  StronglySorted R l -> StronglySorted (fun x y => R y x) (rev l).
Proof.
  induction 1 as [|a l Hl IH Ha]; simpl; [constructor|].
  apply StronglySorted_snoc; [exact IH|].
  intros x Hx. apply in_rev in Hx.
  now apply (proj1 (List.Forall_forall _ _) Ha).
Qed.

Lemma sublist_rev {A} (l k : list A) : sublist l k -> sublist (rev l) (rev k).
Proof.
  induction 1 as [|x l k Hlk IH|x l k Hlk IH]; simpl.
  - constructor.
  - apply sublist_app; [exact IH | reflexivity].
  - rewrite <- (app_nil_r (rev l)). apply sublist_app; [exact IH|].
    apply sublist_nil_l.
Qed.

Lemma filter_all {A} (P : A -> bool) (l : list A) :
  Forall (fun x => P x = true) l -> List.filter P l = l.
Proof.
  induction 1 as [|x l Hx Hl IH]; simpl; [reflexivity|]. now rewrite Hx, IH.
Qed.

Lemma filter_none {A} (P : A -> bool) (l : list A) :
  Forall (fun x => P x = false) l -> List.filter P l = [].
Proof.
  induction 1 as [|x l Hx Hl IH]; simpl; [reflexivity|]. now rewrite Hx, IH.
Qed.

Lemma found_Forall (P : Binding -> Prop) (reg : Registry) :
  Forall P (find isLifeCycleObserverBinding reg) -> Forall P (start_order reg).
Proof.
  intros HP. apply List.Forall_forall. intros b Hb.
  apply (Permutation_in _ (ApplicationFacts.start_order_perm reg)) in Hb.
  now apply (proj1 (List.Forall_forall _ _) HP).
Qed.

(** Appending a binding that the predicate rejects changes neither
    sequence. *)
Lemma order_app_rejected (m : Method) (reg : Registry) (b : Binding) :
  isLifeCycleObserverBinding b = false ->
  order m (reg ++ [b]) = order m reg.
Proof.
  intros Hb.
  assert (Hfind : find isLifeCycleObserverBinding (reg ++ [b])
                  = find isLifeCycleObserverBinding reg).
  { unfold find. rewrite List.filter_app. simpl. rewrite Hb.
    apply app_nil_r. }
  destruct m; simpl;
    unfold stop_order, start_order, _findLifeCycleObserverBindings;
    now rewrite Hfind.
Qed.

End OrderFacts.

(** X1.  [stop()] goes first through the bindings whose server tag is
    present and not empty, in descending lexicographic order of the UTF-16
    code units of the tag read from the tag map, and then through the
    others, in reverse discovery order.  [stop()] resolves the keys of that
    sequence in that order, up to the first failure and all of them when it
    succeeds, calls [stop] on what it resolved that has the capability and
    never [start]; when it succeeds, the capability being settled by the
    key, the observers stopped are those of the whole sequence that have
    the capability, in its order. *)
Theorem servers_stop_first (reg : Registry) :
  let found := find isLifeCycleObserverBinding reg in
  let tagOf := fun b => default "" (tagMap b !! CoreBindings.SERVER_TAG) in
  let descending := fun b1 b2 =>
    Js.lex_le (Js.code_units (tagOf b2)) (Js.code_units (tagOf b1)) in
  let tagless := fun b => bool_decide (tagOf b = "") in
  let servers := fun b => negb (tagless b) in
  stop_order reg
  = List.filter servers (stop_order reg) ++ rev (List.filter tagless found)
  /\ StronglySorted descending (stop_order reg)
  /\ (forall St V (R : Runtime St V) s,
        (exists n,
            got (trace (stop reg s)) = map key (firstn n (stop_order reg))
            /\ (result (stop reg s) = inr tt -> n = length (stop_order reg)))
        /\ invoked MStop (trace (stop reg s)) = capable (trace (stop reg s))
        /\ invoked MStart (trace (stop reg s)) = []
        /\ forall c : string -> bool,
             (forall k v, resolvable k v -> isLifeCycleObserver v = c k) ->
             result (stop reg s) = inr tt ->
             invoked MStop (trace (stop reg s))
             = List.filter c (map key (stop_order reg))).
Proof.
  intros found tagOf descending tagless servers.
  pose proof (ApplicationFacts.start_order_sorted reg) as Hsorted.
  assert (Htagless : forall l,
            List.filter tagless l = List.filter (has_server_tag "") l).
  { intros l. apply List.filter_ext. intros b.
    symmetry. apply ApplicationFacts.has_server_tag_decide. }
  assert (Hservers : forall l,
            List.filter servers l
            = List.filter (fun b => negb (has_server_tag "" b)) l).
  { intros l. apply List.filter_ext. intros b. unfold servers, tagless.
    now rewrite ApplicationFacts.has_server_tag_decide. }
  split; [|split].
  - rewrite Htagless, Hservers. unfold stop_order, Js.reverse.
    fold (start_order reg). rewrite List.filter_rev.
    rewrite (ApplicationFacts.sorted_untagged_first _ Hsorted) at 1.
    rewrite rev_app_distr. f_equal. f_equal.
    apply ApplicationFacts.start_order_stable.
  - apply (OrderFacts.StronglySorted_rev _ _ (ApplicationFacts.sorted_lex _ Hsorted)).
  - intros St V R s.
    change (stop reg s) with (operation MStop reg s).
    rewrite (LifecycleFacts.operation_result MStop),
      (LifecycleFacts.operation_got MStop),
      (LifecycleFacts.operation_capable MStop),
      !(LifecycleFacts.operation_invoked MStop).
    split; [apply (LifecycleFacts.run_got MStop)|].
    split; [apply (LifecycleFacts.run_invoked MStop MStop)|].
    split; [apply (LifecycleFacts.run_invoked MStop MStart)|].
    intros c Hc Hok.
    apply (LifecycleFacts.run_invoked_filter c MStop _ _ Hc Hok).
Qed.

Lemma servers_stop_first_witness :
  let R := Demo.runtime Demo.A_passive in
  invoked MStop (trace (@stop _ _ R Demo.registry 0))
  = List.filter (fun k => match Demo.lookup_key k Demo.A_passive with
                          | Some v => Demo.lifecycle v
                          | None => false
                          end)
      (map key (stop_order Demo.registry)).
Proof.
  intros R.
  refine (proj2 (proj2 (proj2 (proj2 (proj2
            (servers_stop_first Demo.registry))
            nat Demo.Observer R 0))) _ _ _).
  - intros k v [s [s' Hget]]. unfold get, R, Demo.runtime in Hget.
    change (isLifeCycleObserver v) with (Demo.lifecycle v).
    destruct (Demo.lookup_key k Demo.A_passive); inversion Hget; reflexivity.
  - vm_compute. reflexivity.
Defined.

(** X2.  When the bindings found all have the same server tag (none has
    one, say), [start()] goes through them in the order [find] returns
    them, the order of registration, and [stop()] in the reverse of it. *)
Theorem registration_order_kept (reg : Registry) (t : string) :
  Forall (fun b => has_server_tag t b = true)
    (find isLifeCycleObserverBinding reg) ->
  start_order reg = find isLifeCycleObserverBinding reg
  /\ stop_order reg = rev (find isLifeCycleObserverBinding reg).
Proof.
  intros Hall.
  assert (Hstart : start_order reg = find isLifeCycleObserverBinding reg).
  { rewrite <- (OrderFacts.filter_all (has_server_tag t) (start_order reg))
      by (now apply OrderFacts.found_Forall).
    rewrite ApplicationFacts.start_order_stable.
    now apply OrderFacts.filter_all. }
  split; [exact Hstart|].
  unfold stop_order, Js.reverse. fold (start_order reg). now rewrite Hstart.
Qed.

Lemma registration_order_kept_witness :
  start_order [Demo.constant; Demo.D; Demo.A]
  = [Demo.constant; Demo.A].
Proof.
  assert (Hall : Forall (fun b => has_server_tag "" b = true)
                   (find isLifeCycleObserverBinding
                      [Demo.constant; Demo.D; Demo.A]))
    by (vm_compute; repeat constructor).
  exact (proj1 (registration_order_kept [Demo.constant; Demo.D; Demo.A] ""
                  Hall)).
Defined.

Module RunFacts.
Import Application Lifecycle.
Section Facts.
Context {St V : Type} `{Runtime St V}.

Lemma nth_error_split_firstn {A} (l : list A) (i : nat) (x : A) :
  nth_error l i = Some x -> l = firstn i l ++ x :: skipn (S i) l.
Proof.
  revert i. induction l as [|y l IH]; intros [|i] Hi; simpl in *;
    try discriminate.
  - now injection Hi as ->.
  - f_equal. now apply IH.
Qed.

(** A loop whose resolution of [b] is rejected, after the turns before. *)
Lemma run_fails_at_get (m : Method) (pre post : list Binding) (b : Binding)
    (s s2 : St) (e : Error) :
  let o1 := Eff.for_of pre (turn m) s in
  result o1 = inr tt ->
  get (key b) (final o1) = (inl e, s2) ->
  Eff.for_of (pre ++ b :: post) (turn m) s
  = mkOutcome (inl e) s2 (trace o1 ++ [Get (key b) (inl e)]).
Proof.
  intros o1 Hok Hget.
  rewrite EffFacts.for_of_app. unfold Eff.andThen at 1. fold o1. rewrite Hok.
  simpl. unfold Eff.andThen.
  pose proof (LifecycleFacts.turn_cases m b (final o1)) as Hb.
  rewrite Hget in Hb. now rewrite Hb.
Qed.

Lemma reported_app (m : Method) t1 t2 :
  reported (V:=V) m (t1 ++ t2) = reported m t1 ++ reported m t2.
Proof. apply flat_map_app. Qed.

Lemma entering_not_leaving (m m' : Method) :
  String.eqb (entering m) (leaving m') = false.
Proof. now destruct m, m'. Qed.

Lemma leaving_inj (m m' : Method) :
  String.eqb (leaving m) (leaving m') = Method_eqb m m'.
Proof. now destruct m, m'. Qed.

Lemma reported_blocks (m m' : Method) (kvs : list (string * V)) :
  reported m' (flat_map (block m) kvs) = fulfilled m' (flat_map (block m) kvs).
Proof.
  induction kvs as [|[k v] kvs IH]; simpl; [reflexivity|].
  rewrite reported_app, LifecycleFacts.fulfilled_app, IH.
  destruct (isLifeCycleObserver v); simpl; [|reflexivity].
  now rewrite entering_not_leaving, leaving_inj.
Qed.

Lemma reported_failing (m m' : Method) (k : string) (e : Error)
    (ac : option V) :
  reported m' (failing m k e ac) = [].
Proof. destruct ac; simpl; [|reflexivity]. now rewrite entering_not_leaving. Qed.

Lemma announced_app (m : Method) t1 t2 :
  announced (V:=V) m (t1 ++ t2) = announced m t1 || announced m t2.
Proof. apply existsb_app. Qed.

Lemma announced_blocks (m m' : Method) (kvs : list (string * V)) :
  announced m' (flat_map (block m) kvs) = false.
Proof.
  induction kvs as [|[k v] kvs IH]; simpl; [reflexivity|].
  rewrite announced_app, IH. now destruct (isLifeCycleObserver v).
Qed.

Lemma announced_failing (m m' : Method) (k : string) (e : Error)
    (ac : option V) :
  announced m' (failing m k e ac) = false.
Proof. now destruct ac. Qed.

(** The loop itself never logs the closing line, and reports as done
    exactly the calls that were fulfilled. *)
Lemma run_reported (m : Method) (bs : list Binding) (s : St) :
  reported m (trace (Eff.for_of bs (turn m) s))
  = fulfilled m (trace (Eff.for_of bs (turn m) s))
  /\ announced m (trace (Eff.for_of bs (turn m) s)) = false.
Proof.
  destruct (LifecycleFacts.run_shape m bs s) as [vs [_ Hrun]].
  destruct (result (Eff.for_of bs (turn m) s)) as [e|[]].
  - destruct Hrun as [b [ac [_ [_ Ht]]]]. rewrite Ht.
    rewrite reported_app, LifecycleFacts.fulfilled_app, announced_app,
      reported_blocks, reported_failing, LifecycleFacts.fulfilled_failing,
      announced_blocks, announced_failing.
    now split.
  - destruct Hrun as [_ Ht]. rewrite Ht, reported_blocks, announced_blocks.
    now split.
Qed.

End Facts.
End RunFacts.

(** X3.  When the resolution of the binding at position [i] is rejected,
    the turns before it having succeeded, [start()] (or [stop()]) rejects
    with that error in the state the resolution left: the keys at
    positions [0..i] were asked for and no others, the binding at [i] was
    not resolved and no method was called for it, and nothing is done
    after the failed resolution. *)
Theorem resolution_failure_aborts (m : Method) (reg : Registry) {St V}
    (R : Runtime St V) (i : nat) (b : Binding) (s s2 : St) (e : Error) :
  let bs := order m reg in
  let o1 := Eff.for_of (firstn i bs) (turn m) s in
  let o := operation m reg s in
  nth_error bs i = Some b ->
  result o1 = inr tt ->
  get (key b) (final o1) = (inl e, s2) ->
  result o = inl e
  /\ final o = s2
  /\ got (trace o) = map key (firstn (S i) bs)
  /\ resolved (trace o) = resolved (trace o1)
  /\ invoked m (trace o) = capable (trace o1)
  /\ fulfilled m (trace o) = invoked m (trace o)
  /\ invoked (other m) (trace o) = []
  /\ trace o = Debug (opening m) [] :: trace o1 ++ [Get (key b) (inl e)].
Proof.
  intros bs o1 o Hnth Hok Hget.
  pose proof (RunFacts.run_fails_at_get m (firstn i bs) (skipn (S i) bs)
                b s s2 e Hok Hget) as Hrun.
  rewrite <- (RunFacts.nth_error_split_firstn bs i b Hnth) in Hrun.
  fold o1 in Hrun.
  assert (Hg1 : got (trace o1) = map key (firstn i bs)).
  { destruct (LifecycleFacts.run_got m (firstn i bs) s) as [n [Hn Hlen]].
    fold o1 in Hn, Hlen. now rewrite Hn, (Hlen Hok), firstn_all. }
  pose proof (LifecycleFacts.run_fulfilled m m (firstn i bs) s Hok) as Hf1.
  pose proof (LifecycleFacts.run_invoked m m (firstn i bs) s) as Hi1.
  pose proof (LifecycleFacts.run_invoked m (other m) (firstn i bs) s) as Ho1.
  fold o1 in Hf1, Hi1, Ho1.
  rewrite LifecycleFacts.Method_eqb_refl in Hi1.
  rewrite LifecycleFacts.Method_eqb_other in Ho1.
  unfold o.
  rewrite LifecycleFacts.operation_result, LifecycleFacts.operation_final,
    LifecycleFacts.operation_got, LifecycleFacts.operation_resolved,
    !LifecycleFacts.operation_invoked, LifecycleFacts.operation_fulfilled.
  rewrite LifecycleFacts.operation_unfold.
  fold bs. rewrite Hrun. simpl.
  rewrite !LifecycleFacts.got_app, !LifecycleFacts.invoked_app,
    !LifecycleFacts.fulfilled_app, LifecycleFacts.resolved_app. simpl.
  rewrite Hg1, Hf1, Hi1, Ho1, !app_nil_r.
  repeat split; try reflexivity.
  rewrite (LifecycleFacts.firstn_S_nth_error _ _ _ Hnth), map_app.
  reflexivity.
Qed.

Lemma resolution_failure_aborts_witness :
  let R := Demo.runtime Demo.C_missing in
  let o := @stop _ _ R Demo.registry 0 in
  result o = inl (UserError "servers.C")
  /\ got (trace o) = ["servers.C"]
  /\ invoked MStop (trace o) = [].
Proof.
  intros R o.
  destruct (resolution_failure_aborts MStop Demo.registry R 0 Demo.C 0 1
              (UserError "servers.C"))
    as (Hr & _ & Hg & _ & Hinv & _);
    try (vm_compute; reflexivity).
  repeat split; assumption.
Defined.

(** X4.  The [debug] lines tell what happened: in every run,
    "Binding %s is now started." (or "... stopped") is logged for exactly
    the observers whose call was fulfilled, in order, and "The application
    is now started." (or "... stopped.") is logged exactly when the
    operation succeeds. *)
Theorem debug_lines_report_outcome (m : Method) (reg : Registry) {St V}
    (R : Runtime St V) (s : St) :
  let o := operation m reg s in
  reported m (trace o) = fulfilled m (trace o)
  /\ (announced m (trace o) = true <-> result o = inr tt).
Proof.
  intros o. unfold o.
  destruct (RunFacts.run_reported m (order m reg) s) as [Hrep Hann].
  rewrite LifecycleFacts.operation_fulfilled, LifecycleFacts.operation_result.
  rewrite LifecycleFacts.operation_unfold. simpl.
  rewrite RunFacts.reported_app, RunFacts.announced_app, Hrep, Hann.
  destruct (result (Eff.for_of (order m reg) (turn m) s)) as [e|[]]; simpl.
  - rewrite app_nil_r. split; [now destruct m|].
    destruct m; simpl; split; discriminate.
  - split.
    + destruct m; simpl; now rewrite app_nil_r.
    + destruct m; simpl; split; reflexivity.
Qed.

(** X5.  [start()] and [stop()] keep no record of what was started.  From
    any state, an operation that succeeds asks for every selected binding
    and calls every observer among them (the capability of what a key
    resolves to being settled by the key); so a second [start()] starts
    every observer again, and a [stop()] stops observers that an aborted
    [start()] never reached. *)
Theorem operations_keep_no_record (reg : Registry) {St V} (R : Runtime St V)
    (c : string -> bool) :
  (forall k v, resolvable k v -> isLifeCycleObserver v = c k) ->
  (forall m s,
     result (operation m reg s) = inr tt ->
     got (trace (operation m reg s)) = map key (order m reg)
     /\ invoked m (trace (operation m reg s))
        = List.filter c (map key (order m reg)))
  /\ (forall s,
        let o1 := start reg s in
        let o2 := start reg (final o1) in
        result o1 = inr tt -> result o2 = inr tt ->
        invoked MStart (trace o1 ++ trace o2)
        = List.filter c (map key (start_order reg))
          ++ List.filter c (map key (start_order reg))).
Proof.
  intros Hc.
  assert (Hany : forall m s,
            result (operation m reg s) = inr tt ->
            got (trace (operation m reg s)) = map key (order m reg)
            /\ invoked m (trace (operation m reg s))
               = List.filter c (map key (order m reg))).
  { intros m s Hok. rewrite LifecycleFacts.operation_result in Hok.
    rewrite LifecycleFacts.operation_got, LifecycleFacts.operation_invoked.
    split.
    - destruct (LifecycleFacts.run_got m (order m reg) s) as [n [Hn Hlen]].
      now rewrite Hn, (Hlen Hok), firstn_all.
    - now apply LifecycleFacts.run_invoked_filter. }
  split; [exact Hany|].
  intros s o1 o2 Hok1 Hok2. rewrite LifecycleFacts.invoked_app.
  destruct (Hany MStart s Hok1) as [_ H1].
  destruct (Hany MStart (final o1) Hok2) as [_ H2].
  change (operation MStart reg s) with o1 in H1.
  change (operation MStart reg (final o1)) with o2 in H2.
  now rewrite H1, H2.
Qed.

Lemma operations_keep_no_record_witness :
  let R := Demo.runtime Demo.B_wont_start in
  let aborted := @start _ _ R [Demo.B; Demo.C] 0 in
  invoked MStart (trace aborted) = ["servers.B"]
  /\ fulfilled MStart (trace aborted) = []
  /\ invoked MStop (trace (@stop _ _ R [Demo.B; Demo.C] (final aborted)))
     = ["servers.C"; "servers.B"].
Proof.
  intros R aborted. split; [vm_compute; reflexivity|].
  split; [vm_compute; reflexivity|].
  refine (proj2 (proj1 (operations_keep_no_record [Demo.B; Demo.C] R
                          (fun k => match Demo.lookup_key k Demo.B_wont_start with
                                    | Some v => Demo.lifecycle v
                                    | None => false
                                    end) _)
                   MStop (final aborted) _)).
  - intros k v [s [s' Hget]]. unfold get, R, Demo.runtime in Hget.
    change (isLifeCycleObserver v) with (Demo.lifecycle v).
    destruct (Demo.lookup_key k Demo.B_wont_start); inversion Hget; reflexivity.
  - vm_compute. reflexivity.
Defined.

(* ===================================================================== *)
(** * Further properties of registration                                  *)
(* ===================================================================== *)

Module BindingFacts.
Import Application Lifecycle.
Section Facts.
Context `{Container}.

Lemma controllerBinding_rejected (k : string) (c : Constructor) :
  isLifeCycleObserverBinding (controllerBinding k c) = false.
Proof.
  unfold isLifeCycleObserverBinding, controllerBinding; simpl.
  rewrite !lookup_insert_ne by discriminate. rewrite lookup_empty. simpl.
  apply andb_false_r.
Qed.

Lemma constantBinding_rejected (k : string) :
  isLifeCycleObserverBinding (constantBinding k) = false.
Proof.
  unfold isLifeCycleObserverBinding, constantBinding; simpl.
  rewrite lookup_empty. reflexivity.
Qed.

(** The ordering key of a binding made by [server()]. *)
Lemma serverBinding_serverTag (k : string) (c : Constructor) :
  serverTag (serverBinding k c)
  = Js.or_else (Some (tag_value CoreBindings.SERVER_TAG)) "".
Proof.
  unfold serverTag, serverBinding; simpl.
  rewrite lookup_insert_ne by discriminate. now rewrite lookup_insert_eq.
Qed.

Lemma componentBinding_serverTag (k : string) (c : Constructor) :
  serverTag (componentBinding k c) = "".
Proof.
  unfold serverTag, componentBinding.
  destruct (isLifeCycleObserverClass c); simpl;
    rewrite !lookup_insert_ne by discriminate; now rewrite lookup_empty.
Qed.

Lemma componentBinding_selected (k : string) (c : Constructor) :
  isLifeCycleObserverBinding (componentBinding k c)
  = isLifeCycleObserverClass c.
Proof.
  unfold isLifeCycleObserverBinding, componentBinding, type_is, scope_is.
  destruct (isLifeCycleObserverClass c); simpl.
  - now rewrite lookup_insert_eq.
  - rewrite !lookup_insert_ne by discriminate. now rewrite lookup_empty.
Qed.

End Facts.
End BindingFacts.

(** X6.  With 'controllers.<name or ctor.name>' free (an empty name
    counting as none), [controller(ctor, name)] adds under that key a
    class binding for [ctor] tagged "controller" and nothing else, in the
    scope of a fresh binding, and returns it.  Such a binding is not a
    life cycle observer: the sequences of [start()] and [stop()] are what
    they were before. *)
Theorem controller_registration (C : Container) (ctor : Constructor)
    (name : option string) (reg : Registry) :
  let k := controllerKey ctor name in
  let o := controller ctor name reg in
  contains k reg = false ->
  k = ("controllers." ++ Js.or_else name (ctor_name ctor))%string
  /\ controllerKey ctor (Some "") = controllerKey ctor None
  /\ exists b,
       result o = inr k
       /\ final o = reg ++ [b]
       /\ getBinding k (final o) = Some b
       /\ key b = k
       /\ type b = Some BindingType.CLASS
       /\ valueConstructor b = Some ctor
       /\ scope b = default_scope
       /\ dom (tagMap b) = {[CoreBindings.CONTROLLER_TAG]}
       /\ isLifeCycleObserverBinding b = false
       /\ forall m, order m (final o) = order m reg.
Proof.
  intros k o Hk. split; [reflexivity|]. split; [reflexivity|].
  exists (controllerBinding k ctor). unfold o.
  rewrite RegistrationFacts.controller_fresh by exact Hk. simpl. fold k.
  split; [reflexivity|]. split; [reflexivity|].
  split; [now apply RegistrationFacts.getBinding_last|].
  do 4 (split; [reflexivity|]).
  split; [rewrite dom_insert_L, dom_empty_L; apply (right_id_L ∅ (∪))|].
  split; [apply BindingFacts.controllerBinding_rejected|].
  intros m. apply OrderFacts.order_app_rejected.
  apply BindingFacts.controllerBinding_rejected.
Qed.

Lemma controller_registration_witness :
  result (@controller Demo.container Demo.ProductController (Some "")
            Demo.registry)
  = inr "controllers.ProductController"
  /\ start_order (final (@controller Demo.container Demo.ProductController
                           (Some "") Demo.registry))
     = start_order Demo.registry.
Proof.
  destruct (controller_registration Demo.container Demo.ProductController
              (Some "") Demo.registry eq_refl)
    as (_ & _ & b & Hr & _ & _ & _ & _ & _ & _ & _ & _ & Horder).
  split; [exact Hr | exact (Horder MStart)].
Defined.

(** X8.  When the container stores a non-empty value for the "server"
    tag and the bindings found all come from [server()] or [component()],
    [start()] goes through the component bindings, in registration order,
    and then through the server bindings, in registration order. *)
Theorem components_then_servers (C : Container) (reg : Registry) :
  let found := find isLifeCycleObserverBinding reg in
  let T := tag_value CoreBindings.SERVER_TAG in
  T <> "" ->
  Forall (fun b => (exists k c, b = serverBinding k c)
                   \/ (exists k c, b = componentBinding k c)) found ->
  start_order reg
  = List.filter (has_server_tag "") found ++ List.filter (has_server_tag T) found
  /\ (forall k c, has_server_tag "" (componentBinding k c) = true
                  /\ has_server_tag T (componentBinding k c) = false)
  /\ (forall k c, has_server_tag T (serverBinding k c) = true
                  /\ has_server_tag "" (serverBinding k c) = false).
Proof.
  intros found T HT Hall.
  assert (Htag : Js.or_else (Some T) "" = T).
  { unfold Js.or_else, Js.truthy.
    destruct (String.eqb_spec T ""); [contradiction | reflexivity]. }
  assert (Hcomp : forall k c, has_server_tag "" (componentBinding k c) = true
                              /\ has_server_tag T (componentBinding k c) = false).
  { intros k c. unfold has_server_tag.
    rewrite BindingFacts.componentBinding_serverTag. split; [reflexivity|].
    apply String.eqb_neq. congruence. }
  assert (Hserv : forall k c, has_server_tag T (serverBinding k c) = true
                              /\ has_server_tag "" (serverBinding k c) = false).
  { intros k c. unfold has_server_tag.
    rewrite BindingFacts.serverBinding_serverTag. fold T. rewrite Htag.
    split; [apply String.eqb_refl | now apply String.eqb_neq]. }
  split; [|split; [exact Hcomp | exact Hserv]].
  rewrite (ApplicationFacts.sorted_untagged_first _
             (ApplicationFacts.start_order_sorted reg)) at 1.
  rewrite ApplicationFacts.start_order_stable. unfold found. f_equal.
  rewrite <- (ApplicationFacts.start_order_stable reg T).
  apply List.filter_ext_in. intros b Hb.
  apply (Permutation_in _ (ApplicationFacts.start_order_perm reg)) in Hb.
  apply (proj1 (List.Forall_forall _ _) Hall) in Hb.
  destruct Hb as [(k & c & ->)|(k & c & ->)].
  - destruct (Hserv k c) as [-> ->]. reflexivity.
  - destruct (Hcomp k c) as [-> ->]. reflexivity.
Qed.

Lemma components_then_servers_witness :
  let reg :=
    final (@server Demo.singletons Demo.GRPCServer None
             (final (@component Demo.singletons Demo.CacheComponent None
                       (final (@server Demo.singletons Demo.RestServer None []))))) in
  map key (start_order reg)
  = ["components.CacheComponent"; "servers.RestServer"; "servers.GRPCServer"].
Proof.
  intros reg.
  assert (HT : @tag_value Demo.singletons CoreBindings.SERVER_TAG <> "")
    by discriminate.
  assert (Hall : Forall (fun b =>
                    (exists k c, b = @serverBinding Demo.singletons k c)
                    \/ (exists k c, b = @componentBinding Demo.singletons k c))
                   (find isLifeCycleObserverBinding reg)).
  { apply List.Forall_forall. intros b Hb. vm_compute in Hb.
    destruct Hb as [<-|[<-|[<-|[]]]].
    - left. exists "servers.RestServer", Demo.RestServer. reflexivity.
    - right. exists "components.CacheComponent", Demo.CacheComponent.
      reflexivity.
    - left. exists "servers.GRPCServer", Demo.GRPCServer. reflexivity. }
  rewrite (proj1 (components_then_servers Demo.singletons reg HT Hall)).
  vm_compute. reflexivity.
Defined.

Module KeyFacts.
Section Facts.
Context `{Container}.

Lemma serverKey_inj (c c' : Constructor) (n n' : option string) :
  serverKey c n = serverKey c' n' <-> nameOr n c = nameOr n' c'.
Proof.
  unfold serverKey, CoreBindings.SERVERS. cbv [String.append].
  split; [intros [= Heq]; exact Heq | intros Heq; now rewrite Heq].
Qed.

Lemma controllerKey_inj (c c' : Constructor) (n n' : option string) :
  controllerKey c n = controllerKey c' n' <-> nameOr n c = nameOr n' c'.
Proof.
  unfold controllerKey. cbv [String.append].
  split; [intros [= Heq]; exact Heq | intros Heq; now rewrite Heq].
Qed.

Lemma componentKey_inj (c c' : Constructor) (n n' : option string) :
  componentKey c n = componentKey c' n' <-> nameOr n c = nameOr n' c'.
Proof.
  unfold componentKey, CoreBindings.COMPONENTS. cbv [String.append].
  split; [intros [= Heq]; exact Heq | intros Heq; now rewrite Heq].
Qed.

Lemma nameOr_Some (c : Constructor) (n : string) :
  n <> "" -> nameOr (Some n) c = n.
Proof.
  intros Hn. unfold nameOr, Js.or_else, Js.truthy.
  destruct (String.eqb_spec n ""); [contradiction | reflexivity].
Qed.

(** [bind(k).to(value)] on a free key, and then [rest]. *)
Lemma constant_then {A} (k : string) (reg : Registry)
    (rest : BindingRef -> Reg A) :
  contains k reg = false ->
  let o := Eff.andThen (bind k) (fun b => Eff.andThen (to b) rest) reg in
  let o' := rest k (reg ++ [constantBinding k]) in
  result o = result o' /\ final o = final o' /\ trace o = trace o'.
Proof.
  intros Hk o o'. unfold o.
  rewrite (EffFacts.bind_inr _ _ _ _ _ _
             (RegistrationFacts.run_bind_fresh k reg Hk)).
  unfold to.
  rewrite (EffFacts.bind_inr _ _ _ _ _ _
             (RegistrationFacts.run_configure_last Binding_to k reg
                (newBinding k) Hk eq_refl)).
  simpl. now repeat split.
Qed.

End Facts.
End KeyFacts.

(** X9.  The constructor of [Application], its two keys being different,
    leaves two untagged constants in the registry, and [setMetadata], its
    key being free, adds a third: none of them is a life cycle observer.
    So on a freshly constructed application [start()] and [stop()] succeed
    without resolving or calling anything (the application does not start
    itself), and [setMetadata] changes neither sequence. *)
Theorem application_constants_take_no_part (C : Container)
    (K : ApplicationKeys) :
  (APPLICATION_INSTANCE <> APPLICATION_CONFIG ->
   let o := constructor [] in
   result o = inr tt
   /\ final o = [constantBinding APPLICATION_INSTANCE;
                 constantBinding APPLICATION_CONFIG]
   /\ forall St V (R : Runtime St V) m s,
        operation m (final o) s
        = mkOutcome (inr tt) s
            [Debug (opening m) []; Debug (closing m) []])
  /\ (forall reg,
        contains APPLICATION_METADATA reg = false ->
        let o := setMetadata reg in
        result o = inr tt
        /\ final o = reg ++ [constantBinding APPLICATION_METADATA]
        /\ forall m, order m (final o) = order m reg).
Proof.
  split.
  - intros Hne o.
    assert (Ho : result o = inr tt
                 /\ final o = [constantBinding APPLICATION_INSTANCE;
                               constantBinding APPLICATION_CONFIG]).
    { unfold o, constructor.
      destruct (KeyFacts.constant_then APPLICATION_INSTANCE []
                  (fun _ => Eff.andThen (bind APPLICATION_CONFIG)
                              (fun b => Eff.andThen (to b)
                                          (fun _ => Eff.ret tt)))
                  eq_refl) as (-> & -> & _).
      assert (Hfree : contains APPLICATION_CONFIG
                        ([] ++ [constantBinding APPLICATION_INSTANCE]) = false).
      { simpl. rewrite orb_false_r. now apply String.eqb_neq. }
      destruct (KeyFacts.constant_then APPLICATION_CONFIG
                  ([] ++ [constantBinding APPLICATION_INSTANCE])
                  (fun _ => Eff.ret tt) Hfree) as (-> & -> & _).
      now split. }
    destruct Ho as [Hr Hf]. split; [exact Hr|]. split; [exact Hf|].
    intros St V R m s. rewrite Hf, LifecycleFacts.operation_unfold.
    assert (Horder : order m [constantBinding APPLICATION_INSTANCE;
                              constantBinding APPLICATION_CONFIG] = []).
    { destruct m; simpl;
        unfold stop_order, start_order, _findLifeCycleObserverBindings, find;
        simpl; now rewrite !BindingFacts.constantBinding_rejected. }
    rewrite Horder. reflexivity.
  - intros reg Hk o.
    assert (Ho : result o = inr tt
                 /\ final o = reg ++ [constantBinding APPLICATION_METADATA]).
    { unfold o, setMetadata.
      destruct (KeyFacts.constant_then APPLICATION_METADATA reg
                  (fun _ => Eff.ret tt) Hk) as (-> & -> & _).
      now split. }
    destruct Ho as [Hr Hf]. split; [exact Hr|]. split; [exact Hf|].
    intros m. rewrite Hf. apply OrderFacts.order_app_rejected,
      BindingFacts.constantBinding_rejected.
Qed.

Lemma application_constants_take_no_part_witness :
  let app := final (@constructor Demo.container Demo.applicationKeys []) in
  map key app = ["application.instance"; "application.config"]
  /\ trace (@start _ _ (Demo.runtime Demo.all_healthy) app 0)
     = [Debug "Starting the application..." [];
        Debug "The application is now started." []].
Proof.
  intros app.
  destruct (proj1 (application_constants_take_no_part Demo.container
                     Demo.applicationKeys))
    as (_ & Hfinal & Hrun); [discriminate|].
  split.
  - unfold app. rewrite Hfinal. reflexivity.
  - unfold app.
    exact (f_equal trace
             (Hrun nat Demo.Observer (Demo.runtime Demo.all_healthy) MStart 0)).
Defined.

(** X10.  [getServer] asks the context for the key [server()] binds:
    [getServer(ctor)] for a server registered without a name (or with the
    empty name), [getServer(name)] for one registered under a non-empty
    name; it settles as that resolution settles.  A server registered
    under a name other than its class name is not what [getServer(ctor)]
    asks for, and [getServer('')] does not ask for a server registered
    with the empty name. *)
Theorem getServer_asks_for_registered_key (C : Container) (ctor : Constructor)
    (name : option string) (reg : Registry) :
  let k := serverKey ctor name in
  let target : Constructor + string :=
    match name with
    | Some n => if String.eqb n "" then inl ctor else inr n
    | None => inl ctor
    end in
  (contains k reg = false ->
   getBinding (getServerKey target) (final (server ctor name reg))
   = Some (serverBinding k ctor))
  /\ (forall St V (R : Runtime St V) s,
        result (getServer target s) = fst (get k s)
        /\ final (getServer target s) = snd (get k s)
        /\ got (trace (getServer target s)) = [k])
  /\ (forall n, n <> "" ->
        (getServerKey (inl ctor) = serverKey ctor (Some n)
         <-> n = ctor_name ctor))
  /\ (getServerKey (inr "") = serverKey ctor (Some "") <-> ctor_name ctor = "").
Proof.
  intros k target.
  assert (Hkey : getServerKey target = k).
  { unfold target, k. destruct name as [n|]; [|reflexivity].
    destruct (String.eqb_spec n "") as [->|Hn]; [reflexivity|].
    unfold getServerKey, serverKey. now rewrite KeyFacts.nameOr_Some. }
  split; [|split; [|split]].
  - intros Hk. rewrite Hkey, RegistrationFacts.server_fresh by exact Hk.
    simpl. now apply RegistrationFacts.getBinding_last.
  - intros St V R s. unfold getServer. rewrite Hkey. unfold Eff.call.
    destruct (get k s) as [r s']. simpl. now destruct r.
  - intros n Hn. change (getServerKey (inl ctor)) with (serverKey ctor None).
    rewrite KeyFacts.serverKey_inj, KeyFacts.nameOr_Some by exact Hn.
    unfold nameOr. simpl. split; congruence.
  - change (getServerKey (inr "")) with (serverKey (mkConstructor "" 0) None).
    rewrite KeyFacts.serverKey_inj. unfold nameOr. simpl. split; congruence.
Qed.

Lemma getServer_asks_for_registered_key_witness :
  getBinding (getServerKey (inr "v1API"))
    (final (@server Demo.container Demo.RestServer (Some "v1API") Demo.registry))
  = Some (@serverBinding Demo.container "servers.v1API" Demo.RestServer)
  /\ getServerKey (inl Demo.RestServer) <> "servers.v1API".
Proof.
  destruct (getServer_asks_for_registered_key Demo.container Demo.RestServer
              (Some "v1API") Demo.registry) as (Hfound & _ & Hclass & _).
  split; [exact (Hfound eq_refl)|].
  intros Heq. apply (Hclass "v1API") in Heq; discriminate.
Defined.

(** X11.  The keys of controllers, servers and components live under
    different prefixes: a controller, a server and a component may have
    the same name, and two artifacts of one kind have the same key exactly
    when their names ([name || ctor.name]) are the same.  So a server and
    a controller of one name both register. *)
Theorem registration_keys_by_kind (C : Container) (c c' : Constructor)
    (n n' : option string) :
  componentKey c n <> serverKey c' n'
  /\ componentKey c n <> controllerKey c' n'
  /\ serverKey c n <> controllerKey c' n'
  /\ (serverKey c n = serverKey c' n' <-> nameOr n c = nameOr n' c')
  /\ (controllerKey c n = controllerKey c' n' <-> nameOr n c = nameOr n' c')
  /\ (componentKey c n = componentKey c' n' <-> nameOr n c = nameOr n' c')
  /\ (forall reg,
        contains (serverKey c n) reg = false ->
        contains (controllerKey c' n') reg = false ->
        result (controller c' n' (final (server c n reg)))
        = inr (controllerKey c' n')).
Proof.
  split; [discriminate|]. split; [discriminate|]. split; [discriminate|].
  split; [apply KeyFacts.serverKey_inj|].
  split; [apply KeyFacts.controllerKey_inj|].
  split; [apply KeyFacts.componentKey_inj|].
  intros reg Hs Hc.
  rewrite RegistrationFacts.server_fresh by exact Hs. cbn [final].
  rewrite RegistrationFacts.controller_fresh; [reflexivity|].
  rewrite RegistrationFacts.contains_last, Hc. reflexivity.
Qed.

Lemma registration_keys_by_kind_witness :
  result (@controller Demo.container Demo.RestServer None
            (final (@server Demo.container Demo.RestServer None Demo.registry)))
  = inr "controllers.RestServer".
Proof.
  apply (proj2 (proj2 (proj2 (proj2 (proj2 (proj2
           (registration_keys_by_kind Demo.container Demo.RestServer
              Demo.RestServer None None)))))) Demo.registry);
    reflexivity.
Defined.

(* ===================================================================== *)
(** * Further properties of the migration script                          *)
(* ===================================================================== *)

Module ScriptFacts.
Section Facts.
Context {St : Type} `{TodoListApplication St}.

Lemma exitCodes_app (t1 t2 : list ScriptEvent) :
  exitCodes (t1 ++ t2) = exitCodes t1 ++ exitCodes t2.
Proof. apply flat_map_app. Qed.

Lemma errorsLogged_app (t1 t2 : list ScriptEvent) :
  errorsLogged (t1 ++ t2) = errorsLogged t1 ++ errorsLogged t2.
Proof. apply flat_map_app. Qed.

Lemma errorsLogged_Script (t : list Migrate.Event) :
  errorsLogged (map Script t) = [].
Proof. induction t as [|ev t IH]; simpl; [reflexivity | exact IH]. Qed.

(** The two revisions, step by step. *)
Lemma migrate_steps (args : list string) (s : St) :
  let flag := Js.includes args "--rebuild" in
  let line := ConsoleLog "Migrating schemas (%s)"
                [if flag then "rebuild" else "update"] in
  let opts := mkOptions (Some flag) None in
  let opts' := mkOptions None (Some flag) in
  match new s with
  | (inl e, s1) =>
      migrate args s = mkOutcome (inl e) s1 [line; New (inl e)]
      /\ migrate' args s = mkOutcome (inl e) s1 [line; New (inl e)]
  | (inr _, s1) =>
      match boot s1 with
      | (inl e, s2) =>
          migrate args s
          = mkOutcome (inl e) s2 [line; New (inr tt); Boot (inl e)]
          /\ migrate' args s
             = mkOutcome (inl e) s2 [line; New (inr tt); Boot (inl e)]
      | (inr _, s2) =>
          migrate args s
          = (let '(r, s3) := migrateSchema opts s2 in
             mkOutcome r s3
               ([line; New (inr tt); Boot (inr tt); MigrateSchema opts r]
                ++ match r with inr _ => [Exit 0] | inl _ => [] end))
          /\ migrate' args s
             = (let '(r, s3) := migrateSchema opts' s2 in
                mkOutcome r s3
                  [line; New (inr tt); Boot (inr tt); MigrateSchema opts' r])
      end
  end.
Proof.
  unfold migrate, migrate', Eff.andThen, Eff.call, Eff.emit; simpl.
  destruct (new s) as [[e|[]] s1]; simpl; [now split|].
  destruct (boot s1) as [[e|[]] s2]; simpl; [now split|].
  split.
  - destruct (migrateSchema _ s2) as [[e|[]] s3]; reflexivity.
  - destruct (migrateSchema _ s2) as [[e|[]] s3]; reflexivity.
Qed.

End Facts.
End ScriptFacts.

(** X12.  The script of the first revision always ends the process, with
    code 0 when [migrate] succeeds and with code 1 when it fails; the
    script of the second revision ends it, with code 1, only when
    [migrate] fails.  In both, [console.error] is given the error of the
    failure and is not called otherwise. *)
Theorem script_exit_codes {St : Type} (T : TodoListApplication St)
    (argv : list string) (s : St) :
  exitCodes (trace (main argv s))
  = [match result (migrate argv s) with inr _ => 0 | inl _ => 1 end]%Z
  /\ exitCodes (trace (main' argv s))
     = match result (migrate' argv s) with inr _ => [] | inl _ => [1%Z] end
  /\ errorsLogged (trace (main argv s))
     = match result (migrate argv s) with inr _ => [] | inl e => [e] end
  /\ errorsLogged (trace (main' argv s))
     = match result (migrate' argv s) with inr _ => [] | inl e => [e] end.
Proof.
  pose proof (ScriptFacts.migrate_steps argv s) as Hsteps.
  cbv zeta in Hsteps. unfold main, main', Migrate.catch. cbn [trace].
  rewrite !ScriptFacts.exitCodes_app, !ScriptFacts.errorsLogged_app,
    !ScriptFacts.errorsLogged_Script.
  destruct (new s) as [[e|[]] s1].
  - destruct Hsteps as [-> ->]. repeat split; reflexivity.
  - destruct (boot s1) as [[e|[]] s2].
    + destruct Hsteps as [-> ->]. repeat split; reflexivity.
    + destruct Hsteps as [-> ->].
      destruct (migrateSchema _ s2) as [[e|[]] s3];
        destruct (migrateSchema _ s2) as [[e'|[]] s3'];
        repeat split; reflexivity.
Qed.


